(** * RingBuffer.hpp: a ring buffer over a doubly mapped memory region

    A shallow embedding of [include/RingBuffer.hpp].  The class keeps one
    shared memory object of [m_size_bytes] bytes and maps it twice, back to
    back, into a reservation of [2 * m_size_bytes] bytes starting at
    [m_buffer].  Both cursors are [size_t] counters; every read and every
    write is one [memcpy] through the doubled view.

    - [size_t] is a 64-bit unsigned integer, embedded as [Z] with the
      wrap-around written out ([wrap]).
    - The element type [T] is any trivially copyable type: the class only
      ever moves its object representation, [sizeof(T)] bytes, so [T] is a
      type with an encoding into byte lists ([RingBufferElement]).
    - The shared memory object is a [list byte] of length [m_size_bytes];
      the byte at offset [v] of the reservation is the byte
      [v mod m_size_bytes] of the object.
    - A call either returns, throws, or has undefined behaviour (a [memcpy]
      that leaves the reservation, a remainder by zero): [outcome].

    - The system calls of the constructor, of the move constructor and of
      the destructor are recorded as a trace ([syscall]) and replayed
      against what the process holds ([resources]).
    - The tests of [src/main.cpp] on [char], [int] and [double] are
      functions of the host ([verdict]); [test_large_input_overwrite]
      depends on the order in which [memcpy] copies through the two
      mappings, and [test_float_type] on floating-point comparison: they
      are not part of the embedding.

    The development has three parts: the embedding; the properties of the
    class for every element type (round trip, rounding of the capacity,
    the cursors along sequences of calls, reads, [clear]), then for the
    element types whose size divides the region, for which the class is
    shown to be a bounded queue that drops its oldest elements, the
    resources of a lifetime, and the tests; and the class at work on
    [char], [int] and a three-byte [struct]. *)

From Stdlib Require Import ZArith List Lia Bool String Permutation.
From Stdlib Require Import Strings.Byte.
From stdpp Require Import base tactics option list.

Local Open Scope Z_scope.

Abbreviation byte := Byte.byte.

#[global] Instance byte_inhabited : Inhabited byte := populate Byte.x00.

(** ** [size_t] *)

Definition SIZE_WIDTH : Z := 64.

Definition wrap (z : Z) : Z := z mod 2 ^ SIZE_WIDTH.

(** ** The concept [RingBufferElement]: trivially copyable types *)

Class RingBufferElement (T : Type) := {
  sizeof : Z;
  to_bytes : T -> list byte;
  of_bytes : list byte -> T;
  sizeof_pos : 0 < sizeof;
  to_bytes_length : forall x, Z.of_nat (length (to_bytes x)) = sizeof;
  of_to_bytes : forall x, of_bytes (to_bytes x) = x
}.

(** ** Outcomes of a call *)

Inductive exception :=
| invalid_argument (what : string)
| system_error (what : string).

Inductive outcome (A : Type) :=
| Returns (a : A)
| Throws (e : exception)
| Undefined.

Arguments Returns {A} a.
Arguments Throws {A} e.
Arguments Undefined {A}.

Definition bind {A B} (m : outcome A) (k : A -> outcome B) : outcome B :=
  match m with
  | Returns a => k a
  | Throws e => Throws e
  | Undefined => Undefined
  end.

(** ** The host: what the system calls of the constructor answer *)

Record host := {
  sysconf_pagesize : Z;        (* sysconf(_SC_PAGESIZE), a long *)
  memfd_create_ok : bool;
  ftruncate_ok : bool;
  mmap_reserve_ok : bool;
  mmap_first_ok : bool;
  mmap_second_ok : bool
}.

(** ** The doubled view of the shared memory object *)

Section Mirror.

(** [bytes] is [m_size_bytes], [obj] the shared memory object. *)
Variable bytes : Z.

(** The byte of the object behind offset [v] of the reservation. *)
Definition frame (v : Z) : nat := Z.to_nat (v mod bytes).

Definition vstore (obj : list byte) (v : Z) (b : byte) : list byte :=
  <[frame v := b]> obj.

Definition vload (obj : list byte) (v : Z) : byte := obj !!! frame v.

(** [memcpy(m_buffer + v, src, |src|)], low addresses first. *)
Fixpoint memcpy_to (obj : list byte) (v : Z) (src : list byte) : list byte :=
  match src with
  | [] => obj
  | b :: src' => memcpy_to (vstore obj v b) (v + 1) src'
  end.

(** [memcpy(dst, m_buffer + v, n)]: the [n] bytes that land in [dst]. *)
Fixpoint memcpy_from (obj : list byte) (v : Z) (n : nat) : list byte :=
  match n with
  | O => []
  | S n' => vload obj v :: memcpy_from obj (v + 1) n'
  end.

End Mirror.

(** ** The class *)

Record RingBuffer := {
  m_size_bytes : Z;
  m_capacity : Z;
  m_buffer : list byte;
  m_head : Z;
  m_tail : Z
}.

Definition get_page_size (os : host) : outcome Z :=
  let res := sysconf_pagesize os in
  if res <=? 0 then Throws (system_error "failed to get page size")
  else Returns res.

Definition round_to_page (ps size : Z) : Z :=
  if size =? 0 then ps
  else wrap (wrap (size + ps - 1) / ps * ps).

(** The length of the reservation, as the constructor computes it. *)
Definition reservation (rb : RingBuffer) : Z := wrap (2 * m_size_bytes rb).

Definition size (rb : RingBuffer) : Z := wrap (m_head rb - m_tail rb).
Definition capacity (rb : RingBuffer) : Z := m_capacity rb.
Definition empty (rb : RingBuffer) : bool := m_head rb =? m_tail rb.

Definition clear (rb : RingBuffer) : RingBuffer :=
  {| m_size_bytes := m_size_bytes rb;
     m_capacity := m_capacity rb;
     m_buffer := m_buffer rb;
     m_head := 0;
     m_tail := 0 |}.

Section Class.

Context {T : Type} `{RingBufferElement T}.

(** The object representation of a span, and back. *)
Definition span_bytes (data : list T) : list byte :=
  concat (map to_bytes data).

Fixpoint objects (n : nat) (bs : list byte) : list T :=
  match n with
  | O => []
  | S n' =>
      of_bytes (take (Z.to_nat sizeof) bs)
        :: objects n' (drop (Z.to_nat sizeof) bs)
  end.

Definition span_size (data : list T) : Z := Z.of_nat (length data).

(** [RingBuffer(size_t requested_capacity)].  A fresh memfd reads as
    zeroes. *)
Definition construct (os : host) (requested_capacity : Z)
  : outcome RingBuffer :=
  if requested_capacity =? 0 then
    Throws (invalid_argument "capacity must be greater than zero")
  else
    bind (get_page_size os) (fun ps =>
    let size_bytes := round_to_page ps (wrap (requested_capacity * sizeof)) in
    let cap := size_bytes / sizeof in
    if negb (memfd_create_ok os) then
      Throws (system_error "memfd_create failed")
    else if negb (ftruncate_ok os) then
      Throws (system_error "ftruncate failed")
    else if negb (mmap_reserve_ok os) then
      Throws (system_error "mmap reservation failed")
    else if negb (mmap_first_ok os) then
      Throws (system_error "mmap first half failed")
    else if negb (mmap_second_ok os) then
      Throws (system_error "mmap second half failed")
    else
      Returns {| m_size_bytes := size_bytes;
                 m_capacity := cap;
                 m_buffer := replicate (Z.to_nat size_bytes) Byte.x00;
                 m_head := 0;
                 m_tail := 0 |}).

(** [void write(std::span<const T> data)].  The copy is defined when it
    stays inside the reservation. *)
Definition write (rb : RingBuffer) (data : list T) : outcome RingBuffer :=
  if m_capacity rb =? 0 then Undefined
  else
    let target := (m_head rb mod m_capacity rb) * sizeof in
    let src := span_bytes data in
    if target + Z.of_nat (length src) <=? reservation rb then
      let buffer := memcpy_to (m_size_bytes rb) (m_buffer rb) target src in
      let head := wrap (m_head rb + span_size data) in
      let tail :=
        if m_capacity rb <? wrap (head - m_tail rb)
        then wrap (head - m_capacity rb)
        else m_tail rb in
      Returns {| m_size_bytes := m_size_bytes rb;
                 m_capacity := m_capacity rb;
                 m_buffer := buffer;
                 m_head := head;
                 m_tail := tail |}
    else Undefined.

(** [size_t read(std::span<T> output)]: the buffer, the span after the
    copy, and the count. *)
Definition read (rb : RingBuffer) (output : list T)
  : outcome (RingBuffer * list T * Z) :=
  if m_capacity rb =? 0 then Undefined
  else
    let available := wrap (m_head rb - m_tail rb) in
    let to_copy := Z.min available (span_size output) in
    let source := (m_tail rb mod m_capacity rb) * sizeof in
    if source + to_copy * sizeof <=? reservation rb then
      let dst :=
        memcpy_from (m_size_bytes rb) (m_buffer rb) source
          (Z.to_nat (to_copy * sizeof)) in
      Returns ({| m_size_bytes := m_size_bytes rb;
                  m_capacity := m_capacity rb;
                  m_buffer := m_buffer rb;
                  m_head := m_head rb;
                  m_tail := wrap (m_tail rb + to_copy) |},
               objects (Z.to_nat to_copy) dst
                 ++ drop (Z.to_nat to_copy) output,
               to_copy)
    else Undefined.

(** *** Representation invariant

    What the constructor establishes and every operation keeps: the
    capacity is positive and is the region length over [sizeof(T)], the
    shared object has [m_size_bytes] bytes, twice that fits a [size_t],
    and at most [m_capacity] elements are unread. *)
Definition wf (rb : RingBuffer) : Prop :=
  0 < m_capacity rb /\
  m_capacity rb = m_size_bytes rb / sizeof /\
  Z.of_nat (length (m_buffer rb)) = m_size_bytes rb /\
  2 * m_size_bytes rb < 2 ^ SIZE_WIDTH /\
  0 <= m_head rb < 2 ^ SIZE_WIDTH /\
  0 <= m_tail rb < 2 ^ SIZE_WIDTH /\
  size rb <= m_capacity rb.

(** The element slots tile the region exactly: [sizeof(T)] divides
    [m_size_bytes]. *)
Definition aligned (rb : RingBuffer) : Prop :=
  m_capacity rb * sizeof = m_size_bytes rb.

(** The request passes through the constructor without overflow. *)
Definition fits (os : host) (requested_capacity : Z) : Prop :=
  0 < requested_capacity /\
  2 * (requested_capacity * sizeof + sysconf_pagesize os) <= 2 ^ SIZE_WIDTH.

(** [m] is the smallest multiple of [ps] that is at least [x]. *)
Definition least_multiple (ps x m : Z) : Prop :=
  (ps | m) /\ x <= m /\ forall m', (ps | m') -> x <= m' -> m <= m'.

(** *** Sequences of calls *)

Inductive op :=
| Write (data : list T)
| Read (output : list T)
| Clear.

(** One call, with the count it hands back ([0] for the [void] ones). *)
Definition call (rb : RingBuffer) (o : op) : outcome (RingBuffer * Z) :=
  match o with
  | Write data => bind (write rb data) (fun rb' => Returns (rb', 0))
  | Read output => bind (read rb output) (fun r => Returns (r.1.1, r.2))
  | Clear => Returns (clear rb, 0)
  end.

Fixpoint run (rb : RingBuffer) (ops : list op) : outcome RingBuffer :=
  match ops with
  | [] => Returns rb
  | o :: ops' => bind (call rb o) (fun r => run r.1 ops')
  end.

(** The number of elements a sequence of calls writes. *)
Fixpoint written (ops : list op) : Z :=
  match ops with
  | [] => 0
  | Write data :: ops' => span_size data + written ops'
  | _ :: ops' => written ops'
  end.

Definition is_clear (o : op) : bool :=
  match o with Clear => true | _ => false end.

Definition no_clear (ops : list op) : Prop :=
  forallb (fun o => negb (is_clear o)) ops = true.

(** Every write of the sequence is within the capacity. *)
Definition bounded (cap : Z) (ops : list op) : Prop :=
  forall data, In (Write data) ops -> span_size data <= cap.

(** The cursors as plain integers: [tail] behind [head], at most
    [m_capacity] apart. *)
Definition linear (rb : RingBuffer) : Prop :=
  0 <= m_tail rb <= m_head rb /\
  m_head rb - m_tail rb <= m_capacity rb.

(** What the buffer holds: the span a read of [size()] elements fills. *)
Definition contents (blank : T) (rb : RingBuffer) : list T :=
  match read rb (replicate (Z.to_nat (size rb)) blank) with
  | Returns r => r.1.2
  | _ => []
  end.

(** *** The queue the class implements

    The unread elements, oldest first.  [write] appends and keeps the
    most recent [capacity] ones, [read] takes from the front as many as
    the span holds, [clear] drops them all. *)
Definition keep_latest (cap : Z) (q : list T) : list T :=
  drop (length q - Z.to_nat cap) q.

Fixpoint queue_after (cap : Z) (q : list T) (ops : list op) : list T :=
  match ops with
  | [] => q
  | Write data :: ops' => queue_after cap (keep_latest cap (q ++ data)) ops'
  | Read output :: ops' => queue_after cap (drop (length output) q) ops'
  | Clear :: ops' => queue_after cap [] ops'
  end.

(** The object at element offset [k] from [m_buffer]. *)
Definition object_at (rb : RingBuffer) (k : Z) : T :=
  of_bytes (memcpy_from (m_size_bytes rb) (m_buffer rb) (k * sizeof)
              (Z.to_nat sizeof)).

(** The buffer holds the queue [q]: its [i]-th element is the object in
    slot [(m_tail + i) % m_capacity]. *)
Definition holds (rb : RingBuffer) (q : list T) : Prop :=
  Z.of_nat (length q) = m_head rb - m_tail rb /\
  forall i x, q !! i = Some x ->
    object_at rb ((m_tail rb + Z.of_nat i) mod m_capacity rb) = x.

End Class.

(** ** Element types used by the examples *)

(** [char]: one byte. *)
#[global, refine] Instance char_element : RingBufferElement byte := {|
  sizeof := 1;
  to_bytes := fun c => [c];
  of_bytes := fun bs => bs !!! 0%nat
|}.
Proof. all: abstract (intros; done || lia). Defined.

(** [struct rgb { uint8_t r, g, b; }]: three bytes, no padding. *)
Record rgb := Rgb { red : byte; green : byte; blue : byte }.

#[global, refine] Instance rgb_element : RingBufferElement rgb := {|
  sizeof := 3;
  to_bytes := fun c => [red c; green c; blue c];
  of_bytes := fun bs => Rgb (bs !!! 0%nat) (bs !!! 1%nat) (bs !!! 2%nat)
|}.
Proof. all: abstract (intros; try lia; try done; by destruct x). Defined.

(** [int]: four bytes, little endian. *)
Record int := Int { int0 : byte; int1 : byte; int2 : byte; int3 : byte }.

#[global, refine] Instance int_element : RingBufferElement int := {|
  sizeof := 4;
  to_bytes := fun i => [int0 i; int1 i; int2 i; int3 i];
  of_bytes := fun bs =>
    Int (bs !!! 0%nat) (bs !!! 1%nat) (bs !!! 2%nat) (bs !!! 3%nat)
|}.
Proof. all: abstract (intros; try lia; try done; by destruct x). Defined.

Definition byte_of_Z (z : Z) : byte :=
  default Byte.x00 (Byte.of_N (Z.to_N (z mod 256))).

Definition int_of_Z (z : Z) : int :=
  Int (byte_of_Z z) (byte_of_Z (z / 256))
      (byte_of_Z (z / 65536)) (byte_of_Z (z / 16777216)).

(** A Linux host with 4 KiB pages on which every system call succeeds. *)
Definition linux : host :=
  {| sysconf_pagesize := 4096;
     memfd_create_ok := true;
     ftruncate_ok := true;
     mmap_reserve_ok := true;
     mmap_first_ok := true;
     mmap_second_ok := true |}.

Definition returned {A} (d : A) (m : outcome A) : A :=
  match m with Returns a => a | _ => d end.

(** *** [RingBuffer<rgb>]: 4096 bytes, 1365 objects and one byte over *)

Definition black := Rgb Byte.x00 Byte.x00 Byte.x00.
Definition rgb1 := Rgb Byte.x01 Byte.x01 Byte.x01.
Definition rgb9 := Rgb Byte.x09 Byte.x09 Byte.x09.
Definition teal := Rgb Byte.x01 Byte.x02 Byte.x03.
Definition plum := Rgb Byte.x04 Byte.x05 Byte.x06.

(** [RingBuffer<rgb> rb(1)]. *)
Definition rgb_fresh : RingBuffer :=
  {| m_size_bytes := 4096;
     m_capacity := 1365;
     m_buffer := replicate 4096 Byte.x00;
     m_head := 0;
     m_tail := 0 |}.

(** After [rb.write] of 1364 [black] objects: one slot before the end. *)
Definition rgb_near_end : RingBuffer :=
  {| m_size_bytes := 4096;
     m_capacity := 1365;
     m_buffer := replicate 4096 Byte.x00;
     m_head := 1364;
     m_tail := 0 |}.

(** And after reading them all. *)
Definition rgb_drained : RingBuffer :=
  {| m_size_bytes := 4096;
     m_capacity := 1365;
     m_buffer := replicate 4096 Byte.x00;
     m_head := 1364;
     m_tail := 1364 |}.

(** A sequence of calls with a [clear] in it, and where it ends. *)
Definition rgb_calls : list (op (T:=rgb)) :=
  [Write [teal; plum; rgb9]; Read [black; black]; Clear;
   Write [plum]; Write [teal]; Read [black]].

Definition rgb_after_calls : RingBuffer :=
  Eval vm_compute in returned rgb_fresh (run rgb_fresh rgb_calls).

(** A sequence without [clear] that crosses the end of the region and
    discards an element, where it ends, and a read after it. *)
Definition rgb_writes : list (op (T:=rgb)) :=
  [Write [teal; plum]; Read [black]; Write [rgb9]].

Definition rgb_after_writes : RingBuffer :=
  Eval vm_compute in returned rgb_fresh (run rgb_near_end rgb_writes).

Definition rgb_next : RingBuffer * Z :=
  Eval vm_compute in
    returned (rgb_fresh, 0) (call rgb_after_writes (Read [black; black])).

(** Three unread objects. *)
Definition rgb_three : RingBuffer :=
  Eval vm_compute in
    returned rgb_fresh (write rgb_fresh [teal; plum; rgb9]).

(** The overwrite scenario of the test suite on [rgb]: [capacity()] objects
    of value 1, then three of value 9. *)
Definition rgb_overwritten : outcome RingBuffer :=
  bind (write rgb_fresh (replicate 1365 rgb1)) (fun rb =>
  write rb (replicate 3 rgb9)).

(** After the objects of value 1: every byte but the last is written. *)
Definition rgb_ones : RingBuffer :=
  {| m_size_bytes := 4096;
     m_capacity := 1365;
     m_buffer := replicate 4095 Byte.x01 ++ [Byte.x00];
     m_head := 1365;
     m_tail := 0 |}.

Definition rgb_full : RingBuffer :=
  Eval vm_compute in returned rgb_fresh (write rgb_ones (replicate 3 rgb9)).

(** Two objects written at the last slot, in two calls and in one. *)
Definition rgb_split : outcome RingBuffer :=
  bind (write rgb_near_end [teal]) (fun rb => write rb [plum]).

Definition rgb_joined : outcome RingBuffer :=
  write rgb_near_end [teal; plum].

Definition rgb_after_split : RingBuffer :=
  Eval vm_compute in returned rgb_fresh rgb_split.

Definition rgb_after_joined : RingBuffer :=
  Eval vm_compute in returned rgb_fresh rgb_joined.

(** *** [RingBuffer<int>]: 16384 bytes, 4096 objects *)

(** [RingBuffer<int> rb(4096)]. *)
Definition int_fresh : RingBuffer :=
  {| m_size_bytes := 16384;
     m_capacity := 4096;
     m_buffer := replicate (Z.to_nat 16384) Byte.x00;
     m_head := 0;
     m_tail := 0 |}.

(** The calls of [test_overwrite_logic]. *)
Definition int_overwrite : list (op (T:=int)) :=
  [Write (replicate 4096 (int_of_Z 1)); Write (replicate 3 (int_of_Z 9))].

(** *** [RingBuffer<char>]: 4096 bytes, 4096 objects *)

(** [RingBuffer<char> rb(4096)]. *)
Definition char_fresh : RingBuffer :=
  {| m_size_bytes := 4096;
     m_capacity := 4096;
     m_buffer := replicate 4096 Byte.x00;
     m_head := 0;
     m_tail := 0 |}.

(** As many [char]s as the reservation has bytes: [2 * capacity()]. *)
Definition two_laps : list byte := replicate (Z.to_nat 8192) Byte.x02.

(** After [rb.write] of one [char]. *)
Definition char_one : RingBuffer :=
  {| m_size_bytes := 4096;
     m_capacity := 4096;
     m_buffer := Byte.x01 :: replicate 4095 Byte.x00;
     m_head := 1;
     m_tail := 0 |}.

(** [RingBuffer<int> rb(size_t(1) << 62)]: the size in bytes wraps
    to 0, and the region is one page. *)
Definition int_wrapped : RingBuffer :=
  {| m_size_bytes := 4096;
     m_capacity := 1024;
     m_buffer := replicate (Z.to_nat 4096) Byte.x00;
     m_head := 0;
     m_tail := 0 |}.

(** [RingBuffer<int> rb(4096)] after [rb.write] of 1, 2, 3. *)
Definition int_three : RingBuffer :=
  Eval vm_compute in
    returned int_fresh (write int_fresh (map int_of_Z [1; 2; 3])).

(** After the 1364 objects were read, [teal] and [plum] written in two
    calls, and after a read of two. *)
Definition rgb_two : RingBuffer :=
  Eval vm_compute in
    returned rgb_fresh
      (bind (write rgb_drained [teal]) (fun rb => write rb [plum])).

Definition rgb_two_read : RingBuffer :=
  Eval vm_compute in
    (returned (rgb_fresh, [], 0) (read rgb_two [black; black])).1.1.

(** *** The cursors at the end of [size_t] *)

Definition SIZE_MAX : Z := 18446744073709551615.

(** [RingBuffer<char> rb(12288)], three pages, with nothing to read and
    both cursors at [cursor]: the capacity does not divide [2^64]. *)
Definition char_wide (cursor : Z) : RingBuffer :=
  {| m_size_bytes := 12288;
     m_capacity := 12288;
     m_buffer := replicate (Z.to_nat 12288) Byte.x00;
     m_head := cursor;
     m_tail := cursor |}.

(** One [char] written and read, [n] times over. *)
Fixpoint turns (n : nat) : list (op (T:=byte)) :=
  match n with
  | O => []
  | S n' => Write [Byte.x00] :: Read [Byte.x00] :: turns n'
  end.

(** Two elements written with both cursors at [SIZE_MAX], and one of them
    read. *)
Definition char_wrapped : RingBuffer :=
  Eval vm_compute in
    returned (char_wide 0) (write (char_wide SIZE_MAX) [Byte.x0b; Byte.x0c]).

Definition char_wrapped_read : RingBuffer :=
  Eval vm_compute in
    (returned (char_wide 0, [], 0) (read char_wrapped [Byte.x00])).1.1.


(** ** The system calls of a lifetime

    The constructor acquires a file descriptor and a reservation and has
    to give back what a failing step leaves behind; the move constructor
    hands the mapping over; the destructor releases it.  The calls are
    recorded with their arguments and with what the host answers. *)

Inductive syscall :=
| memfd_create (ok : bool)
| ftruncate (length : Z) (ok : bool)
| mmap_reserve (length : Z) (ok : bool)          (* mmap(nullptr, ..) *)
| mmap_fixed (offset length : Z) (ok : bool)     (* at m_buffer + offset *)
| munmap (length : Z)                            (* munmap(m_buffer, ..) *)
| close.

(** [static_cast<off_t>]: the 64 bits read as a signed number. *)
Definition to_off_t (z : Z) : Z :=
  if z <? 2 ^ (SIZE_WIDTH - 1) then z else z - 2 ^ SIZE_WIDTH.

(** What a process holds: the descriptor of the memory object, and the
    length of the reservation at [m_buffer]. *)
Record resources := {
  descriptor : bool;
  reserved : option Z
}.

Definition nothing_held : resources :=
  {| descriptor := false; reserved := None |}.

(** The effect of one call on what is held; [None] when the call is made
    on something that is not held: a descriptor that is not open, a
    reservation that is not there or has another length, or when it would
    lose track of something that is. *)
Definition effect (r : resources) (c : syscall) : option resources :=
  match c with
  | memfd_create ok =>
      if descriptor r then None
      else Some {| descriptor := ok; reserved := reserved r |}
  | ftruncate _ _ =>
      if descriptor r then Some r else None
  | mmap_reserve len ok =>
      match reserved r with
      | Some _ => None
      | None =>
          Some {| descriptor := descriptor r;
                  reserved := if ok then Some len else None |}
      end
  | mmap_fixed _ _ _ =>
      match reserved r with
      | Some _ => if descriptor r then Some r else None
      | None => None
      end
  | munmap len =>
      match reserved r with
      | Some total =>
          if len =? total
          then Some {| descriptor := descriptor r; reserved := None |}
          else None
      | None => None
      end
  | close =>
      if descriptor r
      then Some {| descriptor := false; reserved := reserved r |}
      else None
  end.

Fixpoint replay (r : resources) (calls : list syscall) : option resources :=
  match calls with
  | [] => Some r
  | c :: calls' =>
      match effect r c with
      | Some r' => replay r' calls'
      | None => None
      end
  end.

(** An object of the class together with whether [m_buffer] is a mapping
    or [nullptr]. *)
Record object := {
  mapped : bool;
  members : RingBuffer
}.

(** [RingBuffer(RingBuffer&& other) noexcept]: the new object, and what is
    left of [other]. *)
Definition move (other : object) : object * object :=
  ({| mapped := mapped other; members := members other |},
   {| mapped := false; members := members other |}).

(** [~RingBuffer()]. *)
Definition destroy (o : object) : list syscall :=
  if mapped o then [munmap (reservation (members o))] else [].

(** [n] moves in a row: the object at the end, and the moved-from objects
    on the way. *)
Fixpoint relay (n : nat) (o : object) : object * list object :=
  match n with
  | O => (o, [])
  | S n' =>
      let '(next, emptied) := move o in
      let '(final, others) := relay n' next in
      (final, emptied :: others)
  end.

(** The objects of a [RingBuffer<rgb> rb(1)] that was moved twice, in the
    order in which they are destroyed. *)
Definition rgb_objects : list object :=
  [ {| mapped := false; members := rgb_fresh |};
    {| mapped := true; members := rgb_fresh |};
    {| mapped := false; members := rgb_fresh |} ].

Section Acquisition.

Context {T : Type} `{RingBufferElement T}.

(** The constructor with the system calls it makes. *)
Definition construct_calls (os : host) (requested_capacity : Z)
  : list syscall * outcome RingBuffer :=
  if requested_capacity =? 0 then
    ([], Throws (invalid_argument "capacity must be greater than zero"))
  else
    match get_page_size os with
    | Throws e => ([], Throws e)
    | Undefined => ([], Undefined)
    | Returns ps =>
      let size_bytes := round_to_page ps (wrap (requested_capacity * sizeof)) in
      let cap := size_bytes / sizeof in
      let fd := [memfd_create (memfd_create_ok os)] in
      if negb (memfd_create_ok os) then
        (fd, Throws (system_error "memfd_create failed"))
      else
      let sized :=
        fd ++ [ftruncate (to_off_t size_bytes) (ftruncate_ok os)] in
      if negb (ftruncate_ok os) then
        (sized ++ [close], Throws (system_error "ftruncate failed"))
      else
      let reserve :=
        sized ++ [mmap_reserve (wrap (2 * size_bytes)) (mmap_reserve_ok os)] in
      if negb (mmap_reserve_ok os) then
        (reserve ++ [close], Throws (system_error "mmap reservation failed"))
      else
      let first :=
        reserve ++ [mmap_fixed 0 size_bytes (mmap_first_ok os)] in
      if negb (mmap_first_ok os) then
        (first ++ [munmap (wrap (2 * size_bytes)); close],
         Throws (system_error "mmap first half failed"))
      else
      let second :=
        first ++ [mmap_fixed size_bytes size_bytes (mmap_second_ok os)] in
      if negb (mmap_second_ok os) then
        (second ++ [munmap (wrap (2 * size_bytes)); close],
         Throws (system_error "mmap second half failed"))
      else
        (second ++ [close],
         Returns {| m_size_bytes := size_bytes;
                    m_capacity := cap;
                    m_buffer := replicate (Z.to_nat size_bytes) Byte.x00;
                    m_head := 0;
                    m_tail := 0 |})
    end.

(** The buffer is well formed, its slots tile the region, its cursors are
    in order, and it holds the queue [q]. *)
Definition models (rb : RingBuffer) (q : list T) : Prop :=
  wf rb /\ aligned rb /\ linear rb /\ holds rb q.

End Acquisition.

(** A host on which every system call of the constructor succeeds. *)
Definition obliging (os : host) : Prop :=
  0 < sysconf_pagesize os
  /\ memfd_create_ok os = true
  /\ ftruncate_ok os = true
  /\ mmap_reserve_ok os = true
  /\ mmap_first_ok os = true
  /\ mmap_second_ok os = true.

(** ** The tests of [main.cpp]

    Each test is a function of the host; an array that the test leaves
    uninitialised is an argument.  A test passes when it returns; an
    [assert] that fails aborts the process at its line. *)

Inductive verdict :=
| Passed
| AssertionFails (line : Z)
| Uncaught (e : exception)
| Faults.

Definition expect {A} (m : outcome A) (k : A -> verdict) : verdict :=
  match m with
  | Returns a => k a
  | Throws e => Uncaught e
  | Undefined => Faults
  end.

Definition assert_at (line : Z) (cond : bool) (k : verdict) : verdict :=
  if cond then k else AssertionFails line.

Definition int_eqb (a b : int) : bool :=
  Byte.eqb (int0 a) (int0 b) && Byte.eqb (int1 a) (int1 b)
  && Byte.eqb (int2 a) (int2 b) && Byte.eqb (int3 a) (int3 b).

#[global] Instance int_inhabited : Inhabited int := populate (int_of_Z 0).

(** [double]: eight bytes. *)
Record double := Double {
  double0 : byte; double1 : byte; double2 : byte; double3 : byte;
  double4 : byte; double5 : byte; double6 : byte; double7 : byte
}.

#[global, refine] Instance double_element : RingBufferElement double := {|
  sizeof := 8;
  to_bytes := fun d =>
    [double0 d; double1 d; double2 d; double3 d;
     double4 d; double5 d; double6 d; double7 d];
  of_bytes := fun bs =>
    Double (bs !!! 0%nat) (bs !!! 1%nat) (bs !!! 2%nat) (bs !!! 3%nat)
           (bs !!! 4%nat) (bs !!! 5%nat) (bs !!! 6%nat) (bs !!! 7%nat)
|}.
Proof. all: abstract (intros; try lia; try done; by destruct x). Defined.

(** [test_simple_write_read], with the array [int out[5]]. *)
Definition test_simple_write_read (os : host) (out : list int) : verdict :=
  expect (construct (T:=int) os 1024) (fun rb =>
  let input := map int_of_Z [1; 2; 3; 4; 5] in
  expect (write rb input) (fun rb =>
  assert_at 14 (size rb =? 5) (
  expect (read rb out) (fun r =>
  let '(rb, out, n) := r in
  assert_at 19 (n =? 5) (
  assert_at 22
    (forallb (fun i => int_eqb (out !!! i) (input !!! i)) (seq 0 5)) (
  assert_at 25 (empty rb) Passed)))))).

(** [test_wrap_around]. *)
Definition test_wrap_around (os : host) : verdict :=
  expect (construct (T:=byte) os 4096) (fun rb =>
  let cap := capacity rb in
  let padding := replicate (Z.to_nat (wrap (cap - 10))) Byte.x61 in
  expect (write rb padding) (fun rb =>
  let overlap :=
    [Byte.x31; Byte.x32; Byte.x33; Byte.x34; Byte.x35; Byte.x36;
     Byte.x37; Byte.x38; Byte.x39; Byte.x30; Byte.x58; Byte.x59] in
  expect (write rb overlap) (fun rb =>
  assert_at 39 (size rb =? cap) (
  let out := replicate (Z.to_nat cap) Byte.x00 in
  expect (read rb out) (fun r =>
  let out := r.1.2 in
  assert_at 44 (Byte.eqb (out !!! Z.to_nat (wrap (cap - 10))) Byte.x31) (
  assert_at 45 (Byte.eqb (out !!! Z.to_nat (wrap (cap - 1))) Byte.x30)
    Passed)))))).

(** [test_overwrite_logic]. *)
Definition test_overwrite_logic (os : host) : verdict :=
  expect (construct (T:=int) os 4096) (fun rb =>
  let cap := capacity rb in
  let first := replicate (Z.to_nat cap) (int_of_Z 1) in
  expect (write rb first) (fun rb =>
  let second := map int_of_Z [9; 9; 9] in
  expect (write rb second) (fun rb =>
  assert_at 59 (size rb =? cap) (
  let out := replicate (Z.to_nat cap) (int_of_Z 0) in
  expect (read rb out) (fun r =>
  let out := r.1.2 in
  assert_at 64 (int_eqb (out !!! Z.to_nat (wrap (cap - 3))) (int_of_Z 9)) (
  assert_at 65 (int_eqb (out !!! 0%nat) (int_of_Z 1)) Passed)))))).

(** [test_empty_read], with the array [double out[10]]. *)
Definition test_empty_read (os : host) (out : list double) : verdict :=
  expect (construct (T:=double) os 1024) (fun rb =>
  expect (read rb out) (fun r =>
  let '(rb, _, n) := r in
  assert_at 73 (n =? 0) (
  assert_at 74 (empty rb) Passed))).

(** [test_clear]. *)
Definition test_clear (os : host) : verdict :=
  expect (construct (T:=int) os 1024) (fun rb =>
  let data := map int_of_Z [1; 2; 3] in
  expect (write rb data) (fun rb =>
  let rb := clear rb in
  assert_at 83 (size rb =? 0) (
  assert_at 84 (empty rb) Passed))).

(** [test_partial_reads], with the arrays [int out1[3]] and
    [int out2[7]]. *)
Definition test_partial_reads (os : host) (out1 out2 : list int) : verdict :=
  expect (construct (T:=int) os 1024) (fun rb =>
  let data := map int_of_Z [1; 2; 3; 4; 5; 6; 7; 8; 9; 10] in
  expect (write rb data) (fun rb =>
  expect (read rb out1) (fun r =>
  let '(rb, out1, n) := r in
  assert_at 113 (n =? 3) (
  assert_at 114 (int_eqb (out1 !!! 0%nat) (int_of_Z 1)) (
  assert_at 115 (size rb =? 7) (
  expect (read rb out2) (fun r =>
  let '(rb, out2, n) := r in
  assert_at 117 (n =? 7) (
  assert_at 118 (int_eqb (out2 !!! 0%nat) (int_of_Z 4)) (
  assert_at 119 (empty rb) Passed))))))))).

(** * Properties *)

(** ** Arithmetic of [size_t] *)

Ltac wrap_arith :=
  unfold wrap in *;
  change (2 ^ SIZE_WIDTH) with 18446744073709551616 in *;
  Z.div_mod_to_equations; lia.

Lemma wrap_small z : 0 <= z < 2 ^ SIZE_WIDTH -> wrap z = z.
Proof. intros Hz. unfold wrap. by rewrite Z.mod_small. Qed.

Lemma wrap_range z : 0 <= wrap z < 2 ^ SIZE_WIDTH.
Proof. unfold wrap. apply Z.mod_pos_bound. by vm_compute. Qed.

Lemma wrap_add_l a b : wrap (wrap a + b) = wrap (a + b).
Proof. unfold wrap. by rewrite Zplus_mod_idemp_l. Qed.

Lemma wrap_sub_l a b : wrap (wrap a - b) = wrap (a - b).
Proof. unfold wrap. by rewrite Zminus_mod_idemp_l. Qed.

(** ** The doubled view *)

Section MirrorFacts.

Variable bytes : Z.
Hypothesis bytes_pos : 0 < bytes.

Lemma frame_lt v : (frame bytes v < Z.to_nat bytes)%nat.
Proof.
  unfold frame. pose proof (Z.mod_pos_bound v bytes bytes_pos). lia.
Qed.

(** Two offsets less than [bytes] apart never share a byte. *)
Lemma frame_apart v i :
  0 < i < bytes -> frame bytes (v + i) <> frame bytes v.
Proof.
  intros Hi Heq. unfold frame in Heq.
  pose proof (Z.mod_pos_bound v bytes bytes_pos).
  pose proof (Z.mod_pos_bound (v + i) bytes bytes_pos).
  assert (Hm : (v + i) mod bytes = v mod bytes) by lia.
  assert (Hd : ((v + i) - v) mod bytes = 0).
  { rewrite Zminus_mod, Hm, Z.sub_diag. by apply Z.mod_0_l; lia. }
  replace (v + i - v) with i in Hd by lia.
  rewrite Z.mod_small in Hd; lia.
Qed.

(** The two halves of the reservation show the same bytes. *)
Lemma frame_mirror v : frame bytes (v + bytes) = frame bytes v.
Proof.
  unfold frame. f_equal.
  replace (v + bytes) with (v + 1 * bytes) by lia.
  apply Z_mod_plus_full.
Qed.

Lemma length_memcpy_to obj v src :
  length (memcpy_to bytes obj v src) = length obj.
Proof.
  revert obj v. induction src as [|b src IH]; intros obj v; simpl; [done|].
  rewrite IH. apply length_insert.
Qed.

(** A copy leaves every byte it does not reach as it was. *)
Lemma memcpy_to_frame obj v src p :
  (forall i, 0 <= i < Z.of_nat (length src) -> frame bytes (v + i) <> p) ->
  memcpy_to bytes obj v src !! p = obj !! p.
Proof.
  revert obj v. induction src as [|b src IH]; intros obj v Hp; simpl; [done|].
  rewrite IH.
  - unfold vstore. apply list_lookup_insert_ne.
    specialize (Hp 0). rewrite Z.add_0_r in Hp. apply Hp.
    simpl length. lia.
  - intros i Hi. replace (v + 1 + i) with (v + (1 + i)) by lia.
    apply Hp. simpl length. lia.
Qed.

Lemma memcpy_to_frame_total obj v src p :
  (forall i, 0 <= i < Z.of_nat (length src) -> frame bytes (v + i) <> p) ->
  memcpy_to bytes obj v src !!! p = obj !!! p.
Proof.
  intros Hp. rewrite !list_lookup_total_alt. by rewrite memcpy_to_frame.
Qed.

(** Reading back what one copy of at most [bytes] bytes has written. *)
Lemma memcpy_from_to obj v src :
  Z.of_nat (length obj) = bytes ->
  Z.of_nat (length src) <= bytes ->
  memcpy_from bytes (memcpy_to bytes obj v src) v (length src) = src.
Proof.
  revert obj v. induction src as [|b src IH]; intros obj v Hobj Hsrc; [done|].
  simpl length in *. simpl. f_equal.
  - unfold vload. rewrite memcpy_to_frame_total.
    + unfold vstore. apply list_lookup_total_insert_eq.
      pose proof (frame_lt v). lia.
    + intros i Hi. replace (v + 1 + i) with (v + (1 + i)) by lia.
      apply frame_apart. lia.
  - apply IH; [|lia]. unfold vstore. rewrite length_insert. lia.
Qed.

(** What a read sees depends only on the bytes it reaches. *)
Lemma memcpy_from_ext obj obj' v n :
  (forall i, 0 <= i < Z.of_nat n ->
     obj !!! frame bytes (v + i) = obj' !!! frame bytes (v + i)) ->
  memcpy_from bytes obj v n = memcpy_from bytes obj' v n.
Proof.
  revert v. induction n as [|n IH]; intros v Hagree; [done|].
  simpl. f_equal.
  - unfold vload. specialize (Hagree 0). rewrite Z.add_0_r in Hagree.
    apply Hagree. lia.
  - apply IH. intros i Hi. replace (v + 1 + i) with (v + (1 + i)) by lia.
    apply Hagree. lia.
Qed.

Lemma length_memcpy_from obj v n : length (memcpy_from bytes obj v n) = n.
Proof. revert v. induction n as [|n IH]; intros v; simpl; [done|]. by rewrite IH. Qed.

Lemma memcpy_from_app obj v n m :
  memcpy_from bytes obj v (n + m)
  = memcpy_from bytes obj v n ++ memcpy_from bytes obj (v + Z.of_nat n) m.
Proof.
  revert v. induction n as [|n IH]; intros v.
  - simpl. by rewrite Z.add_0_r.
  - cbn [Nat.add memcpy_from app]. f_equal. rewrite IH. do 2 f_equal. lia.
Qed.

Lemma memcpy_to_app obj v src1 src2 :
  memcpy_to bytes obj v (src1 ++ src2)
  = memcpy_to bytes (memcpy_to bytes obj v src1)
      (v + Z.of_nat (length src1)) src2.
Proof.
  revert obj v. induction src1 as [|b src1 IH]; intros obj v.
  - simpl. by rewrite Z.add_0_r.
  - cbn [app memcpy_to length]. rewrite IH. f_equal. lia.
Qed.

(** Offsets one region length apart are the same place. *)
Lemma memcpy_to_mirror obj v src :
  memcpy_to bytes obj (v + bytes) src = memcpy_to bytes obj v src.
Proof.
  revert obj v. induction src as [|b src IH]; intros obj v; [done|].
  simpl. unfold vstore. rewrite frame_mirror.
  replace (v + bytes + 1) with (v + 1 + bytes) by lia. apply IH.
Qed.

Lemma memcpy_from_mirror obj v n :
  memcpy_from bytes obj (v + bytes) n = memcpy_from bytes obj v n.
Proof.
  revert v. induction n as [|n IH]; intros v; [done|].
  simpl. unfold vload. rewrite frame_mirror. f_equal.
  replace (v + bytes + 1) with (v + 1 + bytes) by lia. apply IH.
Qed.

(** Copying bytes over the same bytes changes nothing. *)
Lemma memcpy_to_replicate b m v n :
  memcpy_to bytes (replicate m b) v (replicate n b) = replicate m b.
Proof.
  revert v. induction n as [|n IH]; intros v; [done|].
  cbn [replicate memcpy_to]. unfold vstore. rewrite insert_replicate. apply IH.
Qed.

(** A copy that ends inside the first mapping replaces a segment of the
    shared object. *)
Lemma memcpy_to_flat obj v src :
  Z.of_nat (length obj) = bytes ->
  0 <= v -> v + Z.of_nat (length src) <= bytes ->
  memcpy_to bytes obj v src
  = take (Z.to_nat v) obj ++ src
      ++ drop (Z.to_nat v + length src) obj.
Proof.
  revert obj v. induction src as [|b src IH]; intros obj v Hobj Hv Hfit.
  - cbn [memcpy_to length app]. by rewrite Nat.add_0_r, take_drop.
  - cbn [memcpy_to length] in *.
    assert (Hfr : frame bytes v = Z.to_nat v)
      by (unfold frame; rewrite Z.mod_small; lia).
    rewrite IH; unfold vstore; rewrite ?length_insert; try lia.
    rewrite Hfr. replace (Z.to_nat (v + 1)) with (S (Z.to_nat v)) by lia.
    rewrite (take_S_r _ _ b) by (apply list_lookup_insert_eq; lia).
    rewrite take_insert_ge, drop_insert_lt by lia.
    rewrite <- app_assoc. cbn [app].
    by replace (Z.to_nat v + S (length src))%nat
      with (S (Z.to_nat v) + length src)%nat by lia.
Qed.

(** Offsets that are congruent modulo the region length are one place. *)
Lemma frame_congr u v : u mod bytes = v mod bytes -> frame bytes u = frame bytes v.
Proof. unfold frame. by intros ->. Qed.

Lemma memcpy_from_congr obj u v n :
  u mod bytes = v mod bytes ->
  memcpy_from bytes obj u n = memcpy_from bytes obj v n.
Proof.
  revert u v. induction n as [|n IH]; intros u v Huv; [done|].
  cbn [memcpy_from]. unfold vload. rewrite (frame_congr u v Huv). f_equal.
  apply IH. by rewrite Zplus_mod, Huv, <- Zplus_mod.
Qed.

Lemma memcpy_to_congr obj u v src :
  u mod bytes = v mod bytes ->
  memcpy_to bytes obj u src = memcpy_to bytes obj v src.
Proof.
  revert obj u v. induction src as [|b src IH]; intros obj u v Huv; [done|].
  cbn [memcpy_to]. unfold vstore. rewrite (frame_congr u v Huv).
  apply IH. by rewrite Zplus_mod, Huv, <- Zplus_mod.
Qed.

(** Reading a middle part of what one copy has written. *)
Lemma memcpy_from_to_mid obj v s1 s2 s3 :
  Z.of_nat (length obj) = bytes ->
  Z.of_nat (length s1 + length s2 + length s3) <= bytes ->
  memcpy_from bytes (memcpy_to bytes obj v (s1 ++ s2 ++ s3))
    (v + Z.of_nat (length s1)) (length s2)
  = s2.
Proof.
  intros Hobj Hlen. rewrite !memcpy_to_app.
  set (obj1 := memcpy_to bytes obj v s1).
  assert (Hobj1 : Z.of_nat (length obj1) = bytes)
    by (unfold obj1; by rewrite length_memcpy_to).
  transitivity
    (memcpy_from bytes (memcpy_to bytes obj1 (v + Z.of_nat (length s1)) s2)
       (v + Z.of_nat (length s1)) (length s2));
    [|apply memcpy_from_to; [done|lia]].
  apply memcpy_from_ext. intros i Hi.
  apply memcpy_to_frame_total. intros k Hk.
  replace (v + Z.of_nat (length s1) + Z.of_nat (length s2) + k)
    with (v + Z.of_nat (length s1) + i + (Z.of_nat (length s2) + k - i))
    by lia.
  apply frame_apart. lia.
Qed.

(** A copy leaves a range it does not reach as it was. *)
Lemma memcpy_from_to_other obj v src u n :
  (forall i j, 0 <= i < Z.of_nat (length src) -> 0 <= j < Z.of_nat n ->
     frame bytes (v + i) <> frame bytes (u + j)) ->
  memcpy_from bytes (memcpy_to bytes obj v src) u n
  = memcpy_from bytes obj u n.
Proof.
  intros Hapart. apply memcpy_from_ext. intros j Hj.
  apply memcpy_to_frame_total. intros i Hi. by apply Hapart.
Qed.

End MirrorFacts.

(** ** Spans and their object representation *)

Section ClassFacts.

Context {T : Type} `{RingBufferElement T}.

Lemma length_to_bytes (x : T) : length (to_bytes x) = Z.to_nat sizeof.
Proof. pose proof (to_bytes_length x). lia. Qed.

Lemma length_span_bytes (data : list T) :
  Z.of_nat (length (span_bytes data)) = span_size data * sizeof.
Proof.
  unfold span_bytes, span_size. induction data as [|x data IH]; [done|].
  cbn [map concat length]. rewrite length_app, Nat2Z.inj_add, IH.
  pose proof (to_bytes_length x). lia.
Qed.

Lemma span_bytes_app (a b : list T) :
  span_bytes (a ++ b) = span_bytes a ++ span_bytes b.
Proof. unfold span_bytes. by rewrite map_app, concat_app. Qed.

(** Decoding what [span_bytes] has laid out gives the span back. *)
Lemma objects_span_bytes (data : list T) (rest : list byte) :
  objects (length data) (span_bytes data ++ rest) = data.
Proof.
  induction data as [|x data IH]; [done|].
  cbn [length objects]. unfold span_bytes. cbn [map concat].
  rewrite <- app_assoc, <- (length_to_bytes x).
  rewrite take_app_length, drop_app_length.
  rewrite of_to_bytes. f_equal. apply IH.
Qed.

Lemma objects_span_bytes_exact (data : list T) :
  objects (length data) (span_bytes data) = data.
Proof.
  rewrite <- (app_nil_r (span_bytes data)). apply objects_span_bytes.
Qed.

Lemma length_objects n bs : length (objects n bs) = n.
Proof.
  revert bs. induction n as [|n IH]; intros bs; [done|].
  cbn [objects length]. by rewrite IH.
Qed.

(** *** Consequences of the representation invariant *)

Lemma wf_region rb :
  wf rb ->
  m_capacity rb * sizeof <= m_size_bytes rb
  /\ 0 < m_size_bytes rb
  /\ reservation rb = 2 * m_size_bytes rb.
Proof.
  intros (Hcap & Hdiv & _ & Hres & _).
  pose proof sizeof_pos as Hs.
  assert (Hle : m_capacity rb * sizeof <= m_size_bytes rb).
  { rewrite Hdiv, Z.mul_comm. apply Z.mul_div_le. lia. }
  assert (0 < m_size_bytes rb) by nia.
  repeat split; [lia..|]. unfold reservation. apply wrap_small. lia.
Qed.

(** One copy of at most [m_capacity] elements that starts at a slot stays
    inside the reservation. *)
Lemma copy_in_bounds rb k n :
  wf rb -> 0 <= n <= m_capacity rb ->
  (k mod m_capacity rb) * sizeof + n * sizeof <= reservation rb.
Proof.
  intros Hwf Hn. destruct (wf_region rb Hwf) as (Hle & Hpos & ->).
  destruct Hwf as (Hcap & _).
  pose proof (Z.mod_pos_bound k (m_capacity rb) Hcap).
  pose proof sizeof_pos. nia.
Qed.

End ClassFacts.

(** ** Write, then read *)

Section RoundTrip.

Context {T : Type} `{RingBufferElement T}.

(** A write of at most [m_capacity] elements returns, and says where
    the cursors end up. *)
Lemma write_returns rb (data : list T) :
  wf rb -> span_size data <= m_capacity rb ->
  write rb data
  = Returns
      {| m_size_bytes := m_size_bytes rb;
         m_capacity := m_capacity rb;
         m_buffer :=
           memcpy_to (m_size_bytes rb) (m_buffer rb)
             ((m_head rb mod m_capacity rb) * sizeof) (span_bytes data);
         m_head := wrap (m_head rb + span_size data);
         m_tail :=
           if m_capacity rb <? size rb + span_size data
           then wrap (m_head rb + span_size data - m_capacity rb)
           else m_tail rb |}.
Proof.
  intros Hwf Hlen. unfold write.
  assert (Hpos : 0 <= span_size data) by (unfold span_size; lia).
  pose proof (copy_in_bounds rb (m_head rb) (span_size data) Hwf
                (conj Hpos Hlen)) as Hin.
  destruct (wf_region rb Hwf) as (Hle & _ & _).
  destruct Hwf as (Hcap & Hdiv & Hbuf & Hres & Hhead & Htail & Hsize).
  assert (Hcb : m_capacity rb <= m_size_bytes rb)
    by (pose proof sizeof_pos; nia).
  destruct (Z.eqb_spec (m_capacity rb) 0) as [|_]; [lia|].
  rewrite length_span_bytes.
  destruct (Z.leb_spec
    (m_head rb mod m_capacity rb * sizeof + span_size data * sizeof)
    (reservation rb)) as [_|]; [|lia].
  do 2 f_equal.
  rewrite wrap_sub_l.
  assert (Hfill : wrap (m_head rb + span_size data - m_tail rb)
                  = size rb + span_size data).
  { unfold size in *.
    replace (m_head rb + span_size data - m_tail rb)
      with (m_head rb - m_tail rb + span_size data) by lia.
    rewrite <- wrap_add_l. apply wrap_small.
    pose proof (wrap_range (m_head rb - m_tail rb)).
    change (2 ^ SIZE_WIDTH) with 18446744073709551616 in *. lia. }
  rewrite Hfill. by rewrite wrap_sub_l.
Qed.

(** A read on a well-formed buffer returns. *)
Lemma read_returns rb (output : list T) :
  wf rb ->
  let to_copy := Z.min (size rb) (span_size output) in
  read rb output
  = Returns
      ({| m_size_bytes := m_size_bytes rb;
          m_capacity := m_capacity rb;
          m_buffer := m_buffer rb;
          m_head := m_head rb;
          m_tail := wrap (m_tail rb + to_copy) |},
       objects (Z.to_nat to_copy)
         (memcpy_from (m_size_bytes rb) (m_buffer rb)
            ((m_tail rb mod m_capacity rb) * sizeof)
            (Z.to_nat (to_copy * sizeof)))
         ++ drop (Z.to_nat to_copy) output,
       to_copy).
Proof.
  intros Hwf to_copy. unfold read. fold (size rb). fold to_copy.
  assert (Hc : 0 <= to_copy <= m_capacity rb).
  { destruct Hwf as (_ & _ & _ & _ & _ & _ & Hsize).
    pose proof (wrap_range (m_head rb - m_tail rb)).
    unfold to_copy, size, span_size in *. lia. }
  pose proof (copy_in_bounds rb (m_tail rb) to_copy Hwf Hc) as Hin.
  destruct Hwf as (Hcap & _).
  destruct (Z.eqb_spec (m_capacity rb) 0) as [|_]; [lia|].
  destruct (Z.leb_spec
    (m_tail rb mod m_capacity rb * sizeof + to_copy * sizeof)
    (reservation rb)) as [_|]; [done|lia].
Qed.

(** Whatever its length, a write that returns keeps the invariant. *)
Lemma write_wf rb (data : list T) rb' :
  wf rb -> write rb data = Returns rb' -> wf rb'.
Proof.
  intros (Hcap & Hdiv & Hbuf & Hres & Hhead & Htail & Hsize).
  unfold write.
  destruct (m_capacity rb =? 0); [done|].
  destruct (_ <=? reservation rb); [|done].
  intros [= <-]. unfold wf, size. cbn.
  rewrite length_memcpy_to.
  pose proof (wrap_range (m_head rb + span_size data)).
  repeat split; try done; try lia.
  - destruct (_ <? _); [apply wrap_range | lia].
  - destruct (_ <? _); [apply wrap_range | lia].
  - destruct (Z.ltb_spec (m_capacity rb)
      (wrap (wrap (m_head rb + span_size data) - m_tail rb))) as [Hlt|Hge];
      [|done].
    wrap_arith.
Qed.

Lemma read_wf rb (output : list T) rb' output' n :
  wf rb -> read rb output = Returns (rb', output', n) -> wf rb'.
Proof.
  intros Hwf. rewrite (read_returns rb output Hwf). intros [= <- _ _].
  destruct Hwf as (Hcap & Hdiv & Hbuf & Hres & Hhead & Htail & Hsize).
  unfold wf, size in *. cbn.
  assert (0 <= span_size output) by (unfold span_size; lia).
  repeat split; try done; try lia; try apply wrap_range.
  wrap_arith.
Qed.

(** When a write is defined: the capacity is not zero and the copy ends
    inside the reservation. *)
Lemma write_defined rb (data : list T) :
  m_capacity rb <> 0 ->
  (m_head rb mod m_capacity rb) * sizeof + span_size data * sizeof
    <= reservation rb ->
  exists rb', write rb data = Returns rb'.
Proof.
  intros Hcap Hin. unfold write. rewrite length_span_bytes.
  destruct (Z.eqb_spec (m_capacity rb) 0) as [|_]; [done|].
  destruct (Z.leb_spec
    (m_head rb mod m_capacity rb * sizeof + span_size data * sizeof)
    (reservation rb)) as [_|]; [|lia].
  eexists. done.
Qed.

Lemma write_undefined rb (data : list T) :
  reservation rb
    < (m_head rb mod m_capacity rb) * sizeof + span_size data * sizeof ->
  write rb data = Undefined.
Proof.
  intros Hout. unfold write. rewrite length_span_bytes.
  destruct (m_capacity rb =? 0); [done|].
  destruct (Z.leb_spec
    (m_head rb mod m_capacity rb * sizeof + span_size data * sizeof)
    (reservation rb)) as [|_]; [lia|done].
Qed.

Lemma clear_wf rb : wf rb -> wf (clear rb).
Proof.
  intros (Hcap & Hdiv & Hbuf & Hres & Hhead & Htail & Hsize).
  unfold wf, size. cbn. repeat split; try done; try lia; wrap_arith.
Qed.

(** The two states of a round trip, written out. *)
Lemma round_trip_states rb (data output : list T) :
  wf rb ->
  m_head rb = m_tail rb ->
  span_size data <= m_capacity rb ->
  span_size output = span_size data ->
  let buffer :=
    memcpy_to (m_size_bytes rb) (m_buffer rb)
      ((m_head rb mod m_capacity rb) * sizeof) (span_bytes data) in
  let head := wrap (m_head rb + span_size data) in
  write rb data
  = Returns {| m_size_bytes := m_size_bytes rb;
               m_capacity := m_capacity rb;
               m_buffer := buffer;
               m_head := head;
               m_tail := m_tail rb |}
  /\ read {| m_size_bytes := m_size_bytes rb;
             m_capacity := m_capacity rb;
             m_buffer := buffer;
             m_head := head;
             m_tail := m_tail rb |} output
     = Returns ({| m_size_bytes := m_size_bytes rb;
                   m_capacity := m_capacity rb;
                   m_buffer := buffer;
                   m_head := head;
                   m_tail := head |},
                data, span_size data).
Proof.
  intros Hwf Hempty Hlen Hout buffer head. subst buffer head.
  assert (Hsz : size rb = 0) by (unfold size; rewrite Hempty, Z.sub_diag; done).
  assert (Hpos : 0 <= span_size data) by (unfold span_size; lia).
  pose proof (write_returns rb data Hwf Hlen) as Hw.
  rewrite Hsz, Z.add_0_l in Hw.
  destruct (Z.ltb_spec (m_capacity rb) (span_size data)) as [|_]; [lia|].
  pose proof (write_wf _ _ _ Hwf Hw) as Hwf1.
  split; [exact Hw|].
  rewrite (read_returns _ output Hwf1).
  destruct (wf_region rb Hwf) as (Hle & Hbytes & _).
  destruct Hwf as (Hcap & Hdiv & Hbuf & Hres & Hhead & Htail & Hsize).
  unfold size. cbn.
  assert (Hfill : wrap (wrap (m_head rb + span_size data) - m_tail rb)
                  = span_size data).
  { pose proof sizeof_pos. assert (m_capacity rb <= m_size_bytes rb) by nia.
    rewrite <- Hempty. wrap_arith. }
  rewrite Hfill, Hout, Z.min_id, <- Hempty.
  assert (Hn : Z.to_nat (span_size data * sizeof) = length (span_bytes data)).
  { rewrite <- length_span_bytes. lia. }
  rewrite Hn, memcpy_from_to; [|done|done|rewrite length_span_bytes; nia].
  replace (Z.to_nat (span_size data)) with (length data)
    by (unfold span_size; lia).
  rewrite objects_span_bytes_exact.
  replace (length data) with (length output)
    by (unfold span_size in Hout; lia).
  by rewrite drop_all, app_nil_r.
Qed.

(** **C1.**  Writing a sequence of at most [capacity()] elements to an
    empty buffer and reading at once into a span of the same length
    returns that many elements, the written sequence in its order, and
    leaves the buffer empty: [size() == 0] and [empty()]. *)
Theorem round_trip rb (data output : list T) :
  wf rb ->
  empty rb = true ->
  span_size data <= capacity rb ->
  span_size output = span_size data ->
  exists rb1 rb2,
    write rb data = Returns rb1
    /\ read rb1 output = Returns (rb2, data, span_size data)
    /\ size rb2 = 0
    /\ empty rb2 = true.
Proof.
  intros Hwf Hempty Hlen Hout. apply Z.eqb_eq in Hempty.
  destruct (round_trip_states rb data output Hwf Hempty Hlen Hout)
    as (Hw & Hr).
  eexists _, _. split; [exact Hw|]. split; [exact Hr|].
  unfold size, empty. cbn. rewrite Z.sub_diag, Z.eqb_refl. done.
Qed.

End RoundTrip.

(** ** Construction *)

Section Construction.

Context {T : Type} `{RingBufferElement T}.

(** What a constructor call that returns has computed. *)
Lemma construct_inv os requested rb :
  construct os requested = Returns rb ->
  requested <> 0
  /\ 0 < sysconf_pagesize os
  /\ rb = {| m_size_bytes :=
               round_to_page (sysconf_pagesize os) (wrap (requested * sizeof));
             m_capacity :=
               round_to_page (sysconf_pagesize os) (wrap (requested * sizeof))
                 / sizeof;
             m_buffer :=
               replicate
                 (Z.to_nat (round_to_page (sysconf_pagesize os)
                              (wrap (requested * sizeof))))
                 Byte.x00;
             m_head := 0;
             m_tail := 0 |}.
Proof.
  unfold construct, get_page_size.
  destruct (Z.eqb_spec requested 0) as [|Hreq]; [done|].
  destruct (Z.leb_spec (sysconf_pagesize os) 0) as [|Hps]; [done|].
  cbn.
  destruct (memfd_create_ok os); [|done].
  destruct (ftruncate_ok os); [|done].
  destruct (mmap_reserve_ok os); [|done].
  destruct (mmap_first_ok os); [|done].
  destruct (mmap_second_ok os); [|done].
  cbn. intros [= <-]. done.
Qed.

(** Rounding up to the page size, when nothing overflows. *)
Lemma round_to_page_least ps n :
  0 < ps -> 0 < n -> n + ps <= 2 ^ SIZE_WIDTH ->
  least_multiple ps n (round_to_page ps n).
Proof.
  intros Hps Hn Hfit. unfold round_to_page.
  destruct (Z.eqb_spec n 0) as [|_]; [lia|].
  rewrite (wrap_small (n + ps - 1)) by lia.
  pose proof (Z.div_mod (n + ps - 1) ps ltac:(lia)) as Hdm.
  pose proof (Z.mod_pos_bound (n + ps - 1) ps Hps) as Hr.
  set (q := (n + ps - 1) / ps) in *.
  set (r := (n + ps - 1) mod ps) in *.
  assert (Hq : 0 <= q) by (apply Z.div_pos; lia).
  rewrite wrap_small by nia.
  repeat split.
  - exists q. done.
  - nia.
  - intros m' [k ->] Hk.
    destruct (Z.le_gt_cases q k) as [Hqk|Hqk]; [nia|].
    assert (k * ps <= (q - 1) * ps) by nia. lia.
Qed.

Lemma round_to_page_below ps n :
  0 < ps -> 0 < n -> n + ps <= 2 ^ SIZE_WIDTH ->
  round_to_page ps n < n + ps.
Proof.
  intros Hps Hn Hfit. unfold round_to_page.
  destruct (Z.eqb_spec n 0) as [|_]; [lia|].
  rewrite (wrap_small (n + ps - 1)) by lia.
  pose proof (Z.mul_div_le (n + ps - 1) ps Hps).
  assert (0 <= (n + ps - 1) / ps) by (apply Z.div_pos; lia).
  rewrite wrap_small; lia.
Qed.

Lemma construct_wf os requested rb :
  fits os requested ->
  construct os requested = Returns rb ->
  wf rb /\ m_head rb = 0 /\ m_tail rb = 0.
Proof.
  intros [Hreq Hfit] Hc.
  destruct (construct_inv _ _ _ Hc) as (_ & Hps & ->). clear Hc.
  pose proof sizeof_pos as Hs.
  assert (Hn : 0 < requested * sizeof) by nia.
  rewrite (wrap_small (requested * sizeof)) by lia.
  destruct (round_to_page_least (sysconf_pagesize os) (requested * sizeof))
    as ([q Hq] & Hge & Hmin); [lia..|].
  pose proof (round_to_page_below (sysconf_pagesize os) (requested * sizeof)
                Hps Hn ltac:(lia)) as Hup.
  set (bytes := round_to_page _ _) in *.
  assert (Hcap : 0 < bytes / sizeof) by (apply Z.div_str_pos; split; [lia|nia]).
  unfold wf, size. cbn. rewrite length_replicate.
  change (wrap (0 - 0)) with 0.
  repeat split; try lia; by vm_compute.
Qed.

(** **C3, as the code has it.**  When the request does not overflow a
    [size_t], the region length [m_size_bytes] is the smallest multiple
    of the page size that holds [requested_capacity * sizeof(T)] bytes,
    and [capacity()] is that length over [sizeof(T)], rounded down, so
    [capacity() * sizeof(T)] lies within one object of the region length
    and holds the bytes requested.  For an element type whose size
    divides the region length, [capacity() * sizeof(T)] is that smallest
    multiple of the page size. *)
Theorem capacity_rounding os requested rb :
  0 <= requested ->
  requested * sizeof + sysconf_pagesize os <= 2 ^ SIZE_WIDTH ->
  construct os requested = Returns rb ->
  least_multiple (sysconf_pagesize os) (requested * sizeof) (m_size_bytes rb)
  /\ capacity rb = m_size_bytes rb / sizeof
  /\ requested * sizeof <= capacity rb * sizeof <= m_size_bytes rb
  /\ m_size_bytes rb < capacity rb * sizeof + sizeof
  /\ ((sizeof | m_size_bytes rb) ->
      least_multiple (sysconf_pagesize os) (requested * sizeof)
        (capacity rb * sizeof)).
Proof.
  intros Hreq Hfit Hc.
  destruct (construct_inv _ _ _ Hc) as (Hne & Hps & ->). clear Hc.
  pose proof sizeof_pos as Hs.
  assert (Hn : 0 < requested * sizeof) by nia.
  rewrite (wrap_small (requested * sizeof)) by lia.
  pose proof (round_to_page_least (sysconf_pagesize os) (requested * sizeof)
                Hps Hn Hfit) as Hleast.
  unfold capacity. cbn.
  set (bytes := round_to_page _ _) in *.
  destruct Hleast as (Hdiv & Hge & Hmin).
  assert (Hs0 : sizeof <> 0) by lia.
  pose proof (Z.div_mod bytes sizeof Hs0) as Hdm.
  pose proof (Z.mod_pos_bound bytes sizeof Hs) as Hr.
  assert (Hlow : requested <= bytes / sizeof)
    by (apply Z.div_le_lower_bound; lia).
  split; [by repeat split|].
  split; [done|].
  split; [nia|].
  split; [nia|].
  intros [k Hk]. rewrite Hk, Z.div_mul, <- Hk by lia. by repeat split.
Qed.

End Construction.

(** ** The cursors along a sequence of calls *)

Section Cursors.

Context {T : Type} `{RingBufferElement T}.

Lemma span_size_nonneg (data : list T) : 0 <= span_size data.
Proof. unfold span_size. lia. Qed.

(** What a returning write does to the cursors, whatever its length. *)
Lemma write_cursors rb (data : list T) rb' :
  write rb data = Returns rb' ->
  m_capacity rb' = m_capacity rb
  /\ m_size_bytes rb' = m_size_bytes rb
  /\ m_head rb' = wrap (m_head rb + span_size data)
  /\ m_tail rb' =
       if m_capacity rb <? wrap (m_head rb' - m_tail rb)
       then wrap (m_head rb' - m_capacity rb)
       else m_tail rb.
Proof.
  unfold write.
  destruct (m_capacity rb =? 0); [done|].
  destruct (_ <=? reservation rb); [|done].
  intros [= <-]. done.
Qed.

Lemma read_cursors rb (output : list T) rb' output' n :
  read rb output = Returns (rb', output', n) ->
  m_capacity rb' = m_capacity rb
  /\ m_size_bytes rb' = m_size_bytes rb
  /\ m_buffer rb' = m_buffer rb
  /\ m_head rb' = m_head rb
  /\ n = Z.min (size rb) (span_size output)
  /\ m_tail rb' = wrap (m_tail rb + n).
Proof.
  unfold read.
  destruct (m_capacity rb =? 0); [done|].
  destruct (_ <=? reservation rb); [|done].
  intros [= <- _ <-]. done.
Qed.

Lemma linear_size rb :
  linear rb -> m_head rb < 2 ^ SIZE_WIDTH ->
  size rb = m_head rb - m_tail rb.
Proof. intros (Ht & Hc) Hh. unfold size. apply wrap_small. lia. Qed.

(** One call keeps the cursors linear and moves them as the class says:
    a write advances [m_head] by its length and never moves [m_tail]
    back, a read advances [m_tail] by the count it returns. *)
Lemma call_linear rb o rb' n :
  linear rb ->
  m_head rb + written [o] < 2 ^ SIZE_WIDTH ->
  call rb o = Returns (rb', n) ->
  linear rb'
  /\ m_capacity rb' = m_capacity rb
  /\ match o with
     | Write data =>
         m_head rb' = m_head rb + span_size data /\ m_tail rb <= m_tail rb'
     | Read _ =>
         m_head rb' = m_head rb /\ m_tail rb' = m_tail rb + n /\ 0 <= n
     | Clear => m_head rb' = 0 /\ m_tail rb' = 0
     end.
Proof.
  intros (Ht & Hc) Hfit. unfold linear. destruct o as [data|output|]; cbn.
  - destruct (write rb data) as [rb1| |] eqn:Hw; [|done..].
    cbn. intros [= <- _].
    destruct (write_cursors _ _ _ Hw) as (-> & _ & Hh & Htl).
    cbn in Hfit. pose proof (span_size_nonneg data).
    rewrite wrap_small in Hh by lia.
    rewrite Hh in Htl |- *.
    rewrite (wrap_small (m_head rb + span_size data - m_tail rb)) in Htl
      by lia.
    destruct (Z.ltb_spec (m_capacity rb)
                (m_head rb + span_size data - m_tail rb)) as [Hlt|Hge].
    + rewrite wrap_small in Htl by lia. lia.
    + lia.
  - destruct (read rb output) as [[[rb1 out1] n1]| |] eqn:Hr; [|done..].
    cbn. intros [= <- <-].
    destruct (read_cursors _ _ _ _ _ Hr) as (-> & _ & _ & -> & Hn & Htl).
    cbn in Hfit. pose proof (span_size_nonneg output).
    rewrite linear_size in Hn by (unfold linear; lia).
    rewrite wrap_small in Htl by lia.
    lia.
  - intros [= <- _]. cbn. lia.
Qed.

Lemma written_app (ops1 ops2 : list (op (T:=T))) :
  written (ops1 ++ ops2) = written ops1 + written ops2.
Proof.
  induction ops1 as [|[data|output|] ops1 IH]; cbn [app written]; lia.
Qed.

Lemma written_nonneg (ops : list (op (T:=T))) : 0 <= written ops.
Proof.
  induction ops as [|[data|output|] ops IH]; cbn [written];
    try pose proof (span_size_nonneg data); lia.
Qed.

(** Along any sequence of calls the cursors stay linear, and [m_head]
    stays below the number of elements written so far. *)
Lemma run_linear ops : forall rb k rb',
  linear rb -> m_head rb <= k ->
  k + written ops < 2 ^ SIZE_WIDTH ->
  run rb ops = Returns rb' ->
  linear rb' /\ m_head rb' <= k + written ops
  /\ m_capacity rb' = m_capacity rb.
Proof.
  induction ops as [|o ops IH]; intros rb k rb' Hlin Hk Hfit.
  - cbn. intros [= <-]. cbn in Hfit. repeat split; try apply Hlin; lia.
  - cbn [run]. destruct (call rb o) as [[rb1 n]| |] eqn:Hcall; [|done..].
    cbn [bind fst]. intros Hrun.
    pose proof (written_nonneg ops) as Hw.
    assert (Hsplit : written (o :: ops) = written [o] + written ops).
    { change (o :: ops) with ([o] ++ ops). apply written_app. }
    pose proof (written_nonneg [o]) as Hwo.
    assert (Hfit1 : m_head rb + written [o] < 2 ^ SIZE_WIDTH) by lia.
    destruct (call_linear _ _ _ _ Hlin Hfit1 Hcall) as (Hlin1 & Hcap1 & Ho).
    destruct (IH rb1 (k + written [o]) rb' Hlin1) as (Hlin' & Hh' & Hcap');
      [| lia | done | ].
    + destruct o as [data|output|]; cbn [written] in *; destruct Hlin; lia.
    + repeat split; try apply Hlin'; lia.
Qed.

(** Without a [clear], [m_head] is the start plus what was written and
    [m_tail] never moves back. *)
Lemma run_no_clear ops : forall rb rb',
  linear rb -> no_clear ops ->
  m_head rb + written ops < 2 ^ SIZE_WIDTH ->
  run rb ops = Returns rb' ->
  linear rb' /\ m_head rb' = m_head rb + written ops
  /\ m_tail rb <= m_tail rb'.
Proof.
  unfold no_clear.
  induction ops as [|o ops IH]; intros rb rb' Hlin Hnc Hfit.
  - cbn. intros [= <-]. cbn. repeat split; try apply Hlin; lia.
  - cbn [run]. destruct (call rb o) as [[rb1 n]| |] eqn:Hcall; [|done..].
    cbn [bind fst]. intros Hrun. cbn [forallb] in Hnc.
    apply andb_prop in Hnc as [Ho Hnc].
    pose proof (written_nonneg ops) as Hw.
    assert (Hsplit : written (o :: ops) = written [o] + written ops).
    { change (o :: ops) with ([o] ++ ops). apply written_app. }
    pose proof (written_nonneg [o]) as Hwo.
    assert (Hfit1 : m_head rb + written [o] < 2 ^ SIZE_WIDTH) by lia.
    destruct (call_linear _ _ _ _ Hlin Hfit1 Hcall) as (Hlin1 & _ & Hstep).
    assert (Hh1 : m_head rb1 = m_head rb + written [o]
                  /\ m_tail rb <= m_tail rb1).
    { destruct o as [data|output|]; cbn [written] in *; [lia|lia|done]. }
    assert (Hfit2 : m_head rb1 + written ops < 2 ^ SIZE_WIDTH) by lia.
    destruct (IH rb1 rb' Hlin1 Hnc Hfit2 Hrun) as (Hlin' & Hh' & Ht').
    repeat split; try apply Hlin'; lia.
Qed.

Lemma construct_linear os requested rb :
  construct os requested = Returns rb ->
  linear rb /\ m_head rb = 0 /\ m_tail rb = 0.
Proof.
  intros Hc. destruct (construct_inv _ _ _ Hc) as (_ & Hps & ->).
  unfold linear. cbn. repeat split; try lia.
  rewrite Z.sub_0_r. apply Z.div_pos; [|apply sizeof_pos].
  unfold round_to_page. destruct (_ =? 0); [lia|]. apply wrap_range.
Qed.

(** **C5.**  In every state reached from a freshly constructed buffer by
    a sequence of [write], [read] and [clear] calls, [m_tail] is at most
    [m_head], the two are at most [capacity()] apart (so in particular
    after every write), and [size()] is [m_head - m_tail].  The sequence
    writes fewer than [2^64] elements in all, so that the [size_t]
    cursors count without wrapping. *)
Theorem cursors_in_order os requested ops rb0 rb :
  construct os requested = Returns rb0 ->
  written ops < 2 ^ SIZE_WIDTH ->
  run rb0 ops = Returns rb ->
  m_tail rb <= m_head rb
  /\ m_head rb - m_tail rb <= capacity rb
  /\ size rb = m_head rb - m_tail rb.
Proof.
  intros Hc Hfit Hrun.
  destruct (construct_linear _ _ _ Hc) as (Hlin0 & Hh0 & _).
  destruct (run_linear ops rb0 0 rb Hlin0) as (Hlin & Hh & Hcap);
    [lia | lia | done |].
  pose proof (linear_size rb Hlin) as Hsize.
  destruct Hlin as (Ht & Hd). unfold capacity.
  repeat split; try lia.
Qed.

(** **C9.**  Along a sequence of [write] and [read] calls with no
    [clear], neither cursor ever goes back: [m_head] is its start plus
    the lengths written, and [m_tail] only grows.  Of the next call, a
    write adds its length to [m_head] and leaves [m_tail] where it was
    or further on, a read adds the count it returns to [m_tail] and
    leaves [m_head]; only [clear] takes a cursor back, to zero.  The
    lengths stay below [2^64] so that the cursors do not wrap. *)
Theorem cursors_never_go_back rb ops rb1 o rb2 n :
  linear rb ->
  no_clear ops ->
  m_head rb + written ops + written [o] < 2 ^ SIZE_WIDTH ->
  run rb ops = Returns rb1 ->
  call rb1 o = Returns (rb2, n) ->
  m_head rb1 = m_head rb + written ops
  /\ m_head rb <= m_head rb1
  /\ m_tail rb <= m_tail rb1
  /\ match o with
     | Write data =>
         m_head rb2 = m_head rb1 + span_size data
         /\ m_tail rb1 <= m_tail rb2
     | Read _ =>
         m_tail rb2 = m_tail rb1 + n /\ 0 <= n
         /\ m_head rb2 = m_head rb1
     | Clear => m_head rb2 = 0 /\ m_tail rb2 = 0
     end.
Proof.
  intros Hlin Hnc Hfit Hrun Hcall.
  pose proof (written_nonneg ops) as Hw.
  pose proof (written_nonneg [o]) as Hwo.
  assert (Hfit0 : m_head rb + written ops < 2 ^ SIZE_WIDTH) by lia.
  destruct (run_no_clear ops rb rb1 Hlin Hnc Hfit0 Hrun) as (Hlin1 & Hh1 & Ht1).
  assert (Hfit1 : m_head rb1 + written [o] < 2 ^ SIZE_WIDTH) by lia.
  destruct (call_linear _ _ _ _ Hlin1 Hfit1 Hcall) as (_ & _ & Ho).
  repeat split; try lia.
  destruct o as [data|output|]; [lia|lia|done].
Qed.

(** A sequence of calls whose writes are within the capacity returns. *)
Lemma run_returns ops : forall rb,
  wf rb -> bounded (m_capacity rb) ops ->
  exists rb', run rb ops = Returns rb' /\ wf rb'
              /\ m_capacity rb' = m_capacity rb.
Proof.
  induction ops as [|o ops IH]; intros rb Hwf Hb.
  - exists rb. done.
  - assert (Hb' : forall cap, cap = m_capacity rb -> bounded cap ops).
    { intros cap -> data Hin. apply Hb. by right. }
    destruct o as [data|output|]; cbn [run call].
    + assert (Hlen : span_size data <= m_capacity rb) by (apply Hb; by left).
      pose proof (write_returns rb data Hwf Hlen) as Hw.
      pose proof (write_wf _ _ _ Hwf Hw) as Hwf1.
      rewrite Hw. cbn [bind fst].
      destruct (IH _ Hwf1 (Hb' _ eq_refl)) as (rb' & Hrun & Hwf' & Hcap).
      exists rb'. done.
    + pose proof (read_returns rb output Hwf) as Hr. cbn zeta in Hr.
      pose proof (read_wf _ _ _ _ _ Hwf Hr) as Hwf1.
      rewrite Hr. cbn [bind fst snd].
      destruct (IH _ Hwf1 (Hb' _ eq_refl)) as (rb' & Hrun & Hwf' & Hcap).
      exists rb'. done.
    + cbn [bind fst].
      destruct (IH _ (clear_wf _ Hwf) (Hb' _ eq_refl))
        as (rb' & Hrun & Hwf' & Hcap).
      exists rb'. done.
Qed.


End Cursors.

(** ** What a read hands out *)

Section Reading.

Context {T : Type} `{RingBufferElement T}.

(** Decoding one long copy is decoding it object by object. *)
Lemma objects_memcpy_from bytes obj n : forall v,
  objects n (memcpy_from bytes obj v (n * Z.to_nat sizeof))
  = map (fun i : nat =>
           of_bytes (memcpy_from bytes obj (v + Z.of_nat i * sizeof)
                       (Z.to_nat sizeof)))
        (seq 0 n).
Proof.
  pose proof sizeof_pos as Hs.
  induction n as [|n IH]; intros v; [done|].
  cbn [objects Nat.mul seq map]. rewrite memcpy_from_app.
  rewrite take_app_length', drop_app_length'
    by (by rewrite length_memcpy_from).
  f_equal.
  - do 2 f_equal. lia.
  - rewrite IH, <- seq_shift, map_map. apply map_ext. intros i.
    do 2 f_equal. lia.
Qed.

Lemma read_objects rb (output : list T) :
  wf rb ->
  let to_copy := Z.min (size rb) (span_size output) in
  read rb output
  = Returns
      ({| m_size_bytes := m_size_bytes rb;
          m_capacity := m_capacity rb;
          m_buffer := m_buffer rb;
          m_head := m_head rb;
          m_tail := wrap (m_tail rb + to_copy) |},
       map (fun i : nat =>
              object_at rb (m_tail rb mod m_capacity rb + Z.of_nat i))
           (seq 0 (Z.to_nat to_copy))
         ++ drop (Z.to_nat to_copy) output,
       to_copy).
Proof.
  intros Hwf to_copy. rewrite (read_returns rb output Hwf). fold to_copy.
  pose proof sizeof_pos as Hs.
  assert (0 <= to_copy).
  { pose proof (wrap_range (m_head rb - m_tail rb)).
    unfold to_copy, size, span_size. lia. }
  replace (Z.to_nat (to_copy * sizeof))
    with (Z.to_nat to_copy * Z.to_nat sizeof)%nat by lia.
  rewrite objects_memcpy_from. do 3 f_equal.
  f_equal. apply map_ext. intros i. unfold object_at. do 2 f_equal. lia.
Qed.

(** A read on an empty buffer returns 0 and changes nothing. *)
Lemma read_empty rb (output : list T) :
  wf rb -> m_head rb = m_tail rb ->
  read rb output = Returns (rb, output, 0).
Proof.
  intros Hwf Heq. rewrite (read_objects rb output Hwf).
  pose proof (span_size_nonneg output) as HM.
  assert (Hs : size rb = 0)
    by (unfold size; rewrite Heq, Z.sub_diag; done).
  rewrite Hs, Z.min_l by done. cbn [Z.to_nat seq map app drop].
  rewrite Z.add_0_r, wrap_small
    by (destruct Hwf as (_ & _ & _ & _ & _ & Ht & _); lia).
  by destruct rb.
Qed.

End Reading.

(** ** Clearing *)

Section Clearing.

Context {T : Type} `{RingBufferElement T}.

(** **C8.**  [clear] puts both cursors at zero and touches nothing else:
    the capacity, the region and every byte of it stay.  After it
    [size()] is zero and a read finds nothing, whatever was written
    before; a write of at most [capacity()] elements followed by a read
    of as many gives the written elements back and leaves both cursors
    where the same two calls leave them on a buffer that has just been
    constructed with that capacity. *)
Theorem clear_only_resets_cursors rb (data output : list T) :
  wf rb ->
  span_size data <= capacity rb ->
  span_size output = span_size data ->
  clear rb = {| m_size_bytes := m_size_bytes rb;
                m_capacity := m_capacity rb;
                m_buffer := m_buffer rb;
                m_head := 0;
                m_tail := 0 |}
  /\ capacity (clear rb) = capacity rb
  /\ size (clear rb) = 0
  /\ empty (clear rb) = true
  /\ (forall out : list T, read (clear rb) out = Returns (clear rb, out, 0))
  /\ exists rb1 rb2,
       write (clear rb) data = Returns rb1
       /\ read rb1 output = Returns (rb2, data, span_size data)
       /\ m_head rb2 = span_size data
       /\ m_tail rb2 = span_size data
       /\ empty rb2 = true
       /\ forall fresh,
            wf fresh -> m_head fresh = 0 -> m_tail fresh = 0 ->
            capacity fresh = capacity rb ->
            exists f1 f2,
              write fresh data = Returns f1
              /\ read f1 output = Returns (f2, data, span_size data)
              /\ m_head f2 = m_head rb2
              /\ m_tail f2 = m_tail rb2.
Proof.
  intros Hwf Hlen Hout. unfold capacity in *.
  pose proof (clear_wf rb Hwf) as Hwfc.
  pose proof (span_size_nonneg data) as Hpos.
  assert (Hsmall : wrap (0 + span_size data) = span_size data).
  { destruct (wf_region rb Hwf) as (Hle & _ & _).
    destruct Hwf as (Hcap & _ & _ & Hres & _).
    pose proof sizeof_pos. apply wrap_small.
    change (2 ^ SIZE_WIDTH) with 18446744073709551616 in *. nia. }
  repeat split.
  - intros out. by apply read_empty.
  - destruct (round_trip_states (clear rb) data output Hwfc)
      as (Hw & Hr); [done..|].
    eexists _, _. split; [exact Hw|]. split; [exact Hr|].
    unfold empty. cbn [m_head m_tail clear]. rewrite Hsmall, Z.eqb_refl.
    repeat split.
    intros fresh Hwff Hh Ht Hcap.
    destruct (round_trip_states fresh data output Hwff)
      as (Hwf' & Hrf); [lia..|].
    eexists _, _. split; [exact Hwf'|]. split; [exact Hrf|].
    cbn [m_head m_tail]. rewrite Hh, Hsmall. done.
Qed.

End Clearing.

(** ** Element sizes that divide the region

    When [sizeof(T)] divides [m_size_bytes] the slots tile the region, slot
    [m_capacity + k] of the doubled view is slot [k], and the class is a
    bounded queue that forgets its oldest elements. *)

Section Aligned.

Context {T : Type} `{RingBufferElement T}.

Lemma slot_offset cap m t :
  0 < cap -> 0 <= t < sizeof ->
  (m * sizeof + t) mod (cap * sizeof) = (m mod cap) * sizeof + t.
Proof.
  intros Hcap Ht. pose proof sizeof_pos as Hs.
  pose proof (Z.div_mod m cap ltac:(lia)) as Hm.
  pose proof (Z.mod_pos_bound m cap Hcap) as Hr.
  symmetry. apply (Z.mod_unique_pos _ _ (m / cap)); nia.
Qed.

(** Under alignment only the slot modulo the capacity matters. *)
Lemma object_at_mod rb k :
  wf rb -> aligned rb ->
  object_at rb (k mod m_capacity rb) = object_at rb k.
Proof.
  intros Hwf Hal. unfold object_at. f_equal.
  destruct Hwf as (Hcap & _).
  apply memcpy_from_congr. rewrite <- Hal.
  pose proof sizeof_pos as Hs.
  rewrite <- (Z.add_0_r (k mod m_capacity rb * sizeof)).
  rewrite <- (Z.add_0_r (k * sizeof)).
  rewrite !slot_offset by lia. by rewrite Z.mod_mod by lia.
Qed.

(** Two positions less than a capacity apart are in different slots. *)
Lemma slots_apart cap a b :
  0 < cap -> 0 < a - b < cap -> a mod cap <> b mod cap.
Proof.
  intros Hcap Hab Heq.
  assert (Hd : (a - b) mod cap = 0).
  { rewrite Zminus_mod, Heq, Z.sub_diag. by apply Z.mod_0_l; lia. }
  rewrite Z.mod_small in Hd; lia.
Qed.

(** After a copy of at most [cap] objects from slot [h mod cap], the
    [j]-th of them is the object of slot [(h + j) mod cap]. *)
Lemma slot_written cap obj h (data : list T) j x :
  0 < cap ->
  Z.of_nat (length obj) = cap * sizeof ->
  span_size data <= cap ->
  data !! j = Some x ->
  of_bytes
    (memcpy_from (cap * sizeof)
       (memcpy_to (cap * sizeof) obj ((h mod cap) * sizeof) (span_bytes data))
       (((h + Z.of_nat j) mod cap) * sizeof) (Z.to_nat sizeof))
  = x.
Proof.
  intros Hcap Hobj Hlen Hj. pose proof sizeof_pos as Hs.
  assert (Hbytes : 0 < cap * sizeof) by nia.
  pose proof (lookup_lt_Some _ _ _ Hj) as Hjlt.
  pose proof (length_span_bytes data) as Hdata.
  rewrite <- (take_drop_middle data j x Hj) in Hdata |- *.
  rewrite span_bytes_app in Hdata |- *.
  change (span_bytes (x :: drop (S j) data))
    with (to_bytes x ++ span_bytes (drop (S j) data)) in Hdata |- *.
  pose proof (length_span_bytes (take j data)) as Hs1.
  unfold span_size in Hs1. rewrite length_take in Hs1.
  rewrite !length_app in Hdata. unfold span_size in Hdata, Hlen.
  rewrite !length_app, length_take in Hdata. cbn [length] in Hdata.
  rewrite (memcpy_from_congr _ _ _
             ((h mod cap) * sizeof
              + Z.of_nat (length (span_bytes (take j data))))).
  - rewrite <- (length_to_bytes x).
    rewrite memcpy_from_to_mid; [apply of_to_bytes|lia|done|].
    rewrite length_drop in Hdata.
    replace (Z.of_nat (j `min` length data + S (length data - S j)))
      with (Z.of_nat (length data)) in Hdata by lia.
    rewrite <- Nat.add_assoc, Hdata. nia.
  - rewrite Hs1.
    replace (h mod cap * sizeof + Z.of_nat (j `min` length data) * sizeof)
      with ((h mod cap + Z.of_nat j) * sizeof + 0) by lia.
    rewrite <- (Z.add_0_r ((h + Z.of_nat j) mod cap * sizeof)).
    rewrite !slot_offset by lia.
    by rewrite Z.mod_mod, Zplus_mod_idemp_l by lia.
Qed.

(** And a slot that is none of those keeps its object. *)
Lemma slot_kept cap obj h (data : list T) k :
  0 < cap ->
  0 <= k < cap ->
  (forall j, 0 <= j < span_size data -> (h + j) mod cap <> k) ->
  memcpy_from (cap * sizeof)
    (memcpy_to (cap * sizeof) obj ((h mod cap) * sizeof) (span_bytes data))
    (k * sizeof) (Z.to_nat sizeof)
  = memcpy_from (cap * sizeof) obj (k * sizeof) (Z.to_nat sizeof).
Proof.
  intros Hcap Hk Hother. pose proof sizeof_pos as Hs.
  apply memcpy_from_to_other. intros i t Hi Ht.
  rewrite length_span_bytes in Hi.
  assert (Hs0 : sizeof <> 0) by lia.
  pose proof (Z.div_mod i sizeof Hs0) as Hdm.
  pose proof (Z.mod_pos_bound i sizeof Hs) as Hr.
  assert (Hq : 0 <= i / sizeof < span_size data).
  { split; [apply Z.div_pos; lia|]. apply Z.div_lt_upper_bound; lia. }
  specialize (Hother (i / sizeof) Hq).
  unfold frame.
  replace (h mod cap * sizeof + i)
    with ((h mod cap + i / sizeof) * sizeof + i mod sizeof) by lia.
  rewrite !slot_offset by lia.
  rewrite Zplus_mod_idemp_l, (Z.mod_small k) by lia.
  pose proof (Z.mod_pos_bound (h + i / sizeof) cap Hcap) as Hslot.
  intros Heq. apply Hother. nia.
Qed.

Lemma write_aligned rb (data : list T) rb' :
  aligned rb -> write rb data = Returns rb' -> aligned rb'.
Proof.
  unfold aligned. intros Hal Hw.
  destruct (write_cursors _ _ _ Hw) as (-> & -> & _). done.
Qed.

Lemma read_aligned rb (output : list T) rb' output' n :
  aligned rb -> read rb output = Returns (rb', output', n) -> aligned rb'.
Proof.
  unfold aligned. intros Hal Hr.
  destruct (read_cursors _ _ _ _ _ Hr) as (-> & -> & _). done.
Qed.

(** A write of at most [m_capacity] elements appends them to the queue and
    keeps the latest [m_capacity]. *)
Lemma holds_write rb q (data : list T) rb' :
  wf rb -> aligned rb -> linear rb -> holds rb q ->
  span_size data <= m_capacity rb ->
  m_head rb + span_size data < 2 ^ SIZE_WIDTH ->
  write rb data = Returns rb' ->
  holds rb' (keep_latest (m_capacity rb) (q ++ data)).
Proof.
  intros Hwf Hal Hlin (Hlen & Hq) HL Hfit Hw. unfold aligned in Hal.
  rewrite (write_returns rb data Hwf HL) in Hw. injection Hw as <-.
  pose proof (span_size_nonneg data) as HL0.
  assert (Hsize : size rb = m_head rb - m_tail rb).
  { apply linear_size; [done|]. lia. }
  destruct Hlin as ((Ht0 & Hth) & Hfill).
  destruct Hwf as (Hcap & _ & Hbuf & _).
  set (d := (length (q ++ data) - Z.to_nat (m_capacity rb))%nat).
  assert (Hd : Z.of_nat d
               = Z.max 0 (m_head rb + span_size data - m_tail rb
                          - m_capacity rb)).
  { unfold d, span_size. rewrite length_app. lia. }
  assert (Htail : (if m_capacity rb <? size rb + span_size data
                   then wrap (m_head rb + span_size data - m_capacity rb)
                   else m_tail rb) = m_tail rb + Z.of_nat d).
  { rewrite Hsize.
    destruct (Z.ltb_spec (m_capacity rb)
                (m_head rb - m_tail rb + span_size data)) as [Hlt|Hge].
    - rewrite wrap_small; lia.
    - lia. }
  unfold holds, keep_latest. fold d.
  cbn [m_head m_tail m_capacity]. rewrite Htail.
  rewrite (wrap_small (m_head rb + span_size data)) by lia.
  split.
  - rewrite length_drop, length_app. unfold span_size in *. lia.
  - intros i x Hi. rewrite lookup_drop in Hi.
    unfold object_at. cbn [m_size_bytes m_buffer]. rewrite <- Hal.
    pose proof (Z.mod_pos_bound (m_tail rb + Z.of_nat d + Z.of_nat i)
                  (m_capacity rb) Hcap) as Hslot.
    pose proof (lookup_lt_Some _ _ _ Hi) as Hi_lt.
    rewrite length_app in Hi_lt.
    destruct (decide (d + i < length q)%nat) as [Hold|Hnew].
    + rewrite lookup_app_l in Hi by done.
      rewrite slot_kept; [|done|done|].
      * apply Hq in Hi. unfold object_at in Hi. rewrite <- Hal in Hi.
        by replace (m_tail rb + Z.of_nat d + Z.of_nat i)
          with (m_tail rb + Z.of_nat (d + i)) by lia.
      * intros j Hj. apply slots_apart; lia.
    + rewrite lookup_app_r in Hi by lia.
      replace (m_tail rb + Z.of_nat d + Z.of_nat i)
        with (m_head rb + Z.of_nat (d + i - length q)) by lia.
      apply slot_written; [done|lia|done|done].
Qed.

Lemma map_seq_is (f : nat -> T) (l : list T) :
  (forall i x, l !! i = Some x -> f i = x) ->
  map f (seq 0 (length l)) = l.
Proof.
  intros Hf. apply list_eq. intros i.
  change (map f (seq 0 (length l))) with (f <$> seq 0 (length l)).
  rewrite list_lookup_fmap.
  destruct (l !! i) as [x|] eqn:Hi.
  - rewrite lookup_seq_lt by (by eapply lookup_lt_Some).
    cbn. f_equal. by apply Hf.
  - rewrite lookup_seq_ge; [done|]. by apply lookup_ge_None.
Qed.

(** A read takes from the front of the queue. *)
Lemma holds_read rb q (output : list T) rb' output' n :
  wf rb -> aligned rb -> linear rb -> holds rb q ->
  read rb output = Returns (rb', output', n) ->
  n = Z.of_nat (length q `min` length output)
  /\ output' = take (Z.to_nat n) q ++ drop (Z.to_nat n) output
  /\ holds rb' (drop (Z.to_nat n) q).
Proof.
  intros Hwf Hal Hlin (Hlen & Hq) Hr.
  rewrite (read_objects rb output Hwf) in Hr. cbn zeta in Hr.
  assert (Hsize : size rb = Z.of_nat (length q)).
  { rewrite Hlen. apply linear_size; [done|].
    destruct Hwf as (_ & _ & _ & _ & Hh & _). lia. }
  rewrite Hsize in Hr. unfold span_size in Hr.
  replace (Z.of_nat (length q) `min` Z.of_nat (length output))
    with (Z.of_nat (length q `min` length output)) in Hr by lia.
  rewrite Nat2Z.id in Hr. injection Hr as <- <- <-.
  rewrite Nat2Z.id. set (m := (length q `min` length output)%nat).
  split; [done|].
  assert (Hm : length (take m q) = m) by (rewrite length_take; lia).
  split.
  - f_equal. rewrite <- Hm at 1. apply map_seq_is. intros i x Hi.
    apply lookup_take_Some in Hi as [Hi _]. apply Hq in Hi.
    rewrite <- Hi, <- (object_at_mod rb (_ + _)) by done.
    by rewrite Zplus_mod_idemp_l.
  - destruct Hlin as ((Ht0 & Hth) & _).
    destruct Hwf as (_ & _ & _ & _ & Hh & _).
    unfold holds. cbn [m_head m_tail m_capacity].
    rewrite wrap_small by lia. split.
    + rewrite length_drop. lia.
    + intros i x Hi. rewrite lookup_drop in Hi. apply Hq in Hi.
      rewrite <- Hi. unfold object_at. cbn [m_size_bytes m_buffer].
      do 4 f_equal. lia.
Qed.

Lemma holds_empty rb : m_head rb = m_tail rb -> holds rb [].
Proof. intros Heq. split; [cbn; lia|]. intros i x Hi. done. Qed.

(** What a read of everything hands out is the queue. *)
Lemma contents_holds blank rb q :
  wf rb -> aligned rb -> linear rb -> holds rb q ->
  contents blank rb = q.
Proof.
  intros Hwf Hal Hlin Hq. unfold contents.
  assert (Hsize : size rb = Z.of_nat (length q)).
  { destruct Hq as (-> & _). apply linear_size; [done|].
    destruct Hwf as (_ & _ & _ & _ & Hh & _). lia. }
  rewrite Hsize, Nat2Z.id.
  pose proof (read_returns rb (replicate (length q) blank) Hwf) as Hr.
  cbn zeta in Hr. rewrite Hr. cbn [fst snd].
  destruct (holds_read _ _ _ _ _ _ Hwf Hal Hlin Hq Hr) as (Hn & -> & _).
  rewrite length_replicate, Nat.min_id in Hn. rewrite Hn, Nat2Z.id.
  rewrite take_ge, drop_ge by (rewrite ?length_replicate; lia).
  apply app_nil_r.
Qed.

Lemma drop_min (q : list T) n :
  drop (length q `min` n) q = drop n q.
Proof.
  destruct (decide (n <= length q)%nat) as [Hle|Hgt].
  - by rewrite Nat.min_r.
  - rewrite Nat.min_l, drop_all, drop_ge by lia. done.
Qed.

(** One call on the buffer is one step of the queue. *)
Lemma call_holds rb q o rb' n :
  wf rb -> aligned rb -> linear rb -> holds rb q ->
  bounded (m_capacity rb) [o] ->
  m_head rb + written [o] < 2 ^ SIZE_WIDTH ->
  call rb o = Returns (rb', n) ->
  wf rb' /\ aligned rb'
  /\ holds rb' (queue_after (m_capacity rb) q [o]).
Proof.
  intros Hwf Hal Hlin Hq Hb Hfit.
  destruct o as [data|output|]; cbn [call queue_after].
  - destruct (write rb data) as [rb1| |] eqn:Hw; [|done..].
    cbn [bind]. intros [= <- _].
    split; [by eapply write_wf|]. split; [by eapply write_aligned|].
    eapply holds_write; try done.
    + apply Hb. by left.
    + cbn [written] in Hfit. lia.
  - destruct (read rb output) as [[[rb1 out1] n1]| |] eqn:Hr; [|done..].
    cbn [bind fst snd]. intros [= <- _].
    split; [by eapply read_wf|]. split; [by eapply read_aligned|].
    destruct (holds_read _ _ _ _ _ _ Hwf Hal Hlin Hq Hr) as (-> & _ & Hq1).
    by rewrite Nat2Z.id, drop_min in Hq1.
  - intros [= <- _].
    split; [by apply clear_wf|]. split; [done|]. by apply holds_empty.
Qed.

(** The class refines the queue: along every sequence of calls whose
    writes are within the capacity, the buffer holds what the queue
    holds. *)
Lemma run_holds ops : forall rb q k rb',
  wf rb -> aligned rb -> linear rb -> holds rb q ->
  bounded (m_capacity rb) ops ->
  m_head rb <= k -> k + written ops < 2 ^ SIZE_WIDTH ->
  run rb ops = Returns rb' ->
  wf rb' /\ aligned rb' /\ linear rb'
  /\ holds rb' (queue_after (m_capacity rb) q ops).
Proof.
  induction ops as [|o ops IH]; intros rb q k rb' Hwf Hal Hlin Hq Hb Hk Hfit.
  - cbn. intros [= <-]. done.
  - cbn [run]. destruct (call rb o) as [[rb1 n]| |] eqn:Hcall; [|done..].
    cbn [bind fst]. intros Hrun.
    pose proof (written_nonneg ops) as Hw.
    pose proof (written_nonneg [o]) as Hwo.
    assert (Hsplit : written (o :: ops) = written [o] + written ops).
    { change (o :: ops) with ([o] ++ ops). apply written_app. }
    assert (Hfit1 : m_head rb + written [o] < 2 ^ SIZE_WIDTH) by lia.
    assert (Hb1 : bounded (m_capacity rb) [o]).
    { intros data [Heq|[]]. apply Hb. by left. }
    assert (Hb2 : bounded (m_capacity rb) ops).
    { intros data Hin. apply Hb. by right. }
    destruct (call_linear _ _ _ _ Hlin Hfit1 Hcall) as (Hlin1 & Hcap1 & Ho).
    destruct (call_holds _ _ _ _ _ Hwf Hal Hlin Hq Hb1 Hfit1 Hcall)
      as (Hwf1 & Hal1 & Hq1).
    rewrite <- Hcap1 in Hb2.
    assert (Hk1 : m_head rb1 <= k + written [o]).
    { destruct o as [data|output|]; cbn [written] in *; destruct Hlin; lia. }
    assert (Hfit2 : k + written [o] + written ops < 2 ^ SIZE_WIDTH) by lia.
    destruct (IH rb1 _ _ rb' Hwf1 Hal1 Hlin1 Hq1 Hb2 Hk1 Hfit2 Hrun)
      as (Hwf' & Hal' & Hlin' & Hq').
    rewrite Hcap1 in Hq'.
    split; [done|]. split; [done|]. split; [done|].
    by destruct o.
Qed.

Lemma aligned_divides rb :
  wf rb -> (sizeof | m_size_bytes rb) -> aligned rb.
Proof.
  intros (_ & Hdiv & _) [k Hk]. unfold aligned.
  pose proof sizeof_pos. rewrite Hdiv, Hk, Z.div_mul by lia. done.
Qed.

(** **X1.**  The overwrite policy, for element sizes that divide the
    region: after any sequence of calls on a constructed buffer whose
    writes are within the capacity, a read of everything gives the most
    recently written elements that were not read, at most [capacity()] of
    them, in the order they were written. *)
Theorem latest_elements_kept os requested ops rb0 rb blank :
  fits os requested ->
  construct os requested = Returns rb0 ->
  (sizeof | m_size_bytes rb0) ->
  bounded (capacity rb0) ops ->
  written ops < 2 ^ SIZE_WIDTH ->
  run rb0 ops = Returns rb ->
  contents blank rb = queue_after (capacity rb0) [] ops
  /\ size rb = Z.of_nat (length (queue_after (capacity rb0) [] ops)).
Proof.
  intros Hfits Hc Hdiv Hb Hfit Hrun. unfold capacity in *.
  destruct (construct_wf _ _ _ Hfits Hc) as (Hwf0 & Hh0 & Ht0).
  destruct (construct_linear _ _ _ Hc) as (Hlin0 & _).
  pose proof (aligned_divides _ Hwf0 Hdiv) as Hal0.
  assert (Hq0 : holds rb0 []) by (apply holds_empty; lia).
  destruct (run_holds ops rb0 [] 0 rb Hwf0 Hal0 Hlin0 Hq0 Hb)
    as (Hwf & Hal & Hlin & Hq); [lia|lia|done|].
  split; [by apply contents_holds|].
  destruct Hq as (-> & _). apply linear_size; [done|].
  destruct Hwf as (_ & _ & _ & _ & Hh & _). lia.
Qed.

(** **X2.**  Two writes in a row are one write of the two spans, for
    element sizes that divide the region. *)
Theorem write_app_aligned rb (a b : list T) :
  wf rb -> aligned rb ->
  span_size a + span_size b <= capacity rb ->
  m_head rb + span_size a + span_size b < 2 ^ SIZE_WIDTH ->
  bind (write rb a) (fun rb1 => write rb1 b) = write rb (a ++ b).
Proof.
  intros Hwf Hal Hlen Hfit. unfold capacity in Hlen.
  pose proof (span_size_nonneg a) as Ha.
  pose proof (span_size_nonneg b) as Hb.
  assert (Hab : span_size (a ++ b) = span_size a + span_size b)
    by (unfold span_size; rewrite length_app; lia).
  pose proof (write_returns rb a Hwf ltac:(lia)) as Hw1.
  pose proof (write_wf _ _ _ Hwf Hw1) as Hwf1.
  rewrite Hw1. cbn [bind].
  rewrite (write_returns _ b Hwf1) by (cbn [m_capacity]; lia).
  rewrite (write_returns rb (a ++ b) Hwf) by lia.
  destruct (wf_region rb Hwf) as (Hle & Hbytes & _).
  destruct Hwf as (Hcap & _ & Hbuf & Hres & Hhead & Htail & Hsize).
  unfold aligned in Hal. pose proof sizeof_pos as Hs.
  assert (Hcb : m_capacity rb <= m_size_bytes rb) by nia.
  unfold size in *. cbn [m_size_bytes m_capacity m_buffer m_head m_tail].
  rewrite (wrap_small (m_head rb + span_size a)) by lia.
  rewrite Hab. f_equal. f_equal.
  - rewrite span_bytes_app, memcpy_to_app. apply memcpy_to_congr.
    rewrite length_span_bytes, <- Hal.
    replace (m_head rb mod m_capacity rb * sizeof + span_size a * sizeof)
      with ((m_head rb mod m_capacity rb + span_size a) * sizeof + 0) by lia.
    rewrite <- (Z.add_0_r ((m_head rb + span_size a) mod m_capacity rb
                            * sizeof)).
    rewrite !slot_offset by lia.
    by rewrite Z.mod_mod, Zplus_mod_idemp_l by lia.
  - f_equal. lia.
  - destruct (Z.ltb_spec (m_capacity rb)
                (wrap (m_head rb - m_tail rb) + span_size a)) as [H1|H1];
    destruct (Z.ltb_spec (m_capacity rb)
                (wrap (m_head rb - m_tail rb)
                 + (span_size a + span_size b))) as [H2|H2];
    match goal with
    | |- context [?x <? ?y] => destruct (Z.ltb_spec x y) as [H3|H3]
    end;
    wrap_arith.
Qed.

End Aligned.

(** ** The class as a queue

    The statements of the section [Aligned] in the form a caller uses
    them: what each call returns and what the buffer holds afterwards. *)

Section Queue.

Context {T : Type} `{RingBufferElement T}.

Lemma models_size rb (q : list T) :
  models rb q -> size rb = Z.of_nat (length q).
Proof.
  intros (Hwf & _ & Hlin & (-> & _)). apply linear_size; [done|].
  destruct Hwf as (_ & _ & _ & _ & Hh & _). lia.
Qed.

Lemma models_empty rb (q : list T) :
  models rb q -> empty rb = bool_decide (length q = 0%nat).
Proof.
  intros (_ & _ & _ & (Hlen & _)). unfold empty.
  destruct (Z.eqb_spec (m_head rb) (m_tail rb)) as [Heq|Hne];
    symmetry; [apply bool_decide_eq_true | apply bool_decide_eq_false]; lia.
Qed.

Lemma models_write rb (q data : list T) :
  models rb q ->
  span_size data <= capacity rb ->
  m_head rb + span_size data < 2 ^ SIZE_WIDTH ->
  exists rb',
    write rb data = Returns rb'
    /\ models rb' (keep_latest (capacity rb) (q ++ data))
    /\ capacity rb' = capacity rb
    /\ m_head rb' = m_head rb + span_size data.
Proof.
  intros (Hwf & Hal & Hlin & Hq) Hlen Hfit. unfold capacity in *.
  pose proof (write_returns rb data Hwf Hlen) as Hw.
  eexists. split; [exact Hw|].
  assert (Hcall : call rb (Write data) = Returns (_, 0))
    by (cbn [call]; rewrite Hw; reflexivity).
  assert (Hfit1 : m_head rb + written [Write data] < 2 ^ SIZE_WIDTH)
    by (cbn [written]; lia).
  destruct (call_linear _ _ _ _ Hlin Hfit1 Hcall)
    as (Hlin' & Hcap' & Hh' & _).
  split; [|split; [exact Hcap' | exact Hh']].
  split; [by eapply write_wf|]. split; [by eapply write_aligned|].
  split; [done|]. by eapply holds_write.
Qed.

Lemma take_min (q : list T) n : take (length q `min` n) q = take n q.
Proof.
  destruct (decide (n <= length q)%nat) as [Hle|Hgt].
  - by rewrite Nat.min_r.
  - rewrite Nat.min_l, !take_ge by lia. done.
Qed.

Lemma drop_min_r (out : list T) n :
  drop (n `min` length out) out = drop n out.
Proof. by rewrite Nat.min_comm, drop_min. Qed.

Lemma models_read rb (q output : list T) :
  models rb q ->
  exists rb',
    read rb output
    = Returns (rb', take (length output) q ++ drop (length q) output,
               Z.of_nat (length q `min` length output))
    /\ models rb' (drop (length output) q)
    /\ capacity rb' = capacity rb
    /\ m_head rb' = m_head rb.
Proof.
  intros (Hwf & Hal & Hlin & Hq). unfold capacity.
  destruct (read rb output) as [[[rb' out'] n]| |] eqn:Hr;
    [|by rewrite (read_returns rb output Hwf) in Hr..].
  destruct (holds_read _ _ _ _ _ _ Hwf Hal Hlin Hq Hr) as (-> & -> & Hq').
  rewrite Nat2Z.id in Hq' |- *.
  rewrite take_min, drop_min_r. rewrite drop_min in Hq'.
  exists rb'. split; [done|].
  assert (Hcall : call rb (Read output) = Returns (_, _))
    by (cbn [call]; rewrite Hr; reflexivity).
  assert (Hfit1 : m_head rb + written [Read output] < 2 ^ SIZE_WIDTH)
    by (destruct Hwf as (_ & _ & _ & _ & Hh & _); cbn [written]; lia).
  destruct (call_linear _ _ _ _ Hlin Hfit1 Hcall)
    as (Hlin' & Hcap' & Hh' & _).
  cbn [fst snd] in *.
  split; [|split; [exact Hcap' | exact Hh']].
  split; [by eapply read_wf|]. split; [by eapply read_aligned|]. done.
Qed.

Lemma models_clear rb (q : list T) : models rb q -> models (clear rb) [].
Proof.
  intros (Hwf & Hal & ((_ & _) & Hfill) & _).
  split; [by apply clear_wf|]. split; [done|].
  split; [|by apply holds_empty].
  destruct Hwf as (Hcap & _). unfold linear. cbn. lia.
Qed.

(** Whatever memory holds, a buffer whose slots tile the region holds
    some queue. *)
Lemma models_some rb :
  wf rb -> aligned rb -> linear rb ->
  exists q : list T, models rb q.
Proof.
  intros Hwf Hal Hlin.
  exists (map (fun i : nat =>
            object_at rb ((m_tail rb + Z.of_nat i) mod m_capacity rb))
         (seq 0 (Z.to_nat (m_head rb - m_tail rb)))).
  split; [done|]. split; [done|]. split; [done|]. split.
  - rewrite length_map, length_seq. destruct Hlin as ((_ & Hth) & _). lia.
  - intros i x Hi.
    change (map ?f ?l) with (f <$> l) in Hi. rewrite list_lookup_fmap in Hi.
    destruct (seq _ _ !! i) as [j|] eqn:Hj; [|done].
    apply lookup_seq in Hj as (-> & _). cbn in Hi. by injection Hi.
Qed.

Lemma models_construct os requested rb :
  fits os requested ->
  (sizeof | sysconf_pagesize os) ->
  construct os requested = Returns rb ->
  models rb [] /\ m_head rb = 0 /\ requested <= capacity rb.
Proof.
  intros Hfits Hdiv Hc.
  destruct (construct_wf _ _ _ Hfits Hc) as (Hwf & Hh & Ht).
  destruct (construct_linear _ _ _ Hc) as (Hlin & _).
  destruct (construct_inv _ _ _ Hc) as (_ & Hps & Hrb).
  destruct Hfits as (Hreq & Hfit). pose proof sizeof_pos as Hs.
  assert (Hn : 0 < requested * sizeof) by nia.
  destruct (round_to_page_least (sysconf_pagesize os) (requested * sizeof))
    as (Hmul & Hge & _); [lia..|].
  rewrite <- (wrap_small (requested * sizeof)) in Hmul, Hge at 2 by lia.
  assert (Hbytes : m_size_bytes rb
                   = round_to_page (sysconf_pagesize os)
                       (wrap (requested * sizeof))) by (by rewrite Hrb).
  rewrite <- Hbytes in Hmul, Hge.
  split; [|split; [done|]].
  - split; [done|]. split; [|split; [done|by apply holds_empty; lia]].
    apply aligned_divides; [done|].
    destruct Hdiv as [a Ha]. destruct Hmul as [b Hb].
    exists (b * a). rewrite Hb, Ha. lia.
  - destruct Hwf as (_ & Hcap & _). unfold capacity. rewrite Hcap.
    apply Z.div_le_lower_bound; lia.
Qed.

Lemma construct_obliging os requested :
  obliging os -> requested <> 0 ->
  exists rb, construct os requested = Returns rb.
Proof.
  intros (Hps & H1 & H2 & H3 & H4 & H5) Hreq.
  unfold construct, get_page_size. rewrite H1, H2, H3, H4, H5.
  destruct (Z.eqb_spec requested 0) as [|_]; [done|].
  destruct (Z.leb_spec (sysconf_pagesize os) 0) as [|_]; [lia|].
  cbn. eexists. done.
Qed.

End Queue.

(** ** What a read hands out *)

Section Oldest.

Context {T : Type} `{RingBufferElement T}.

Lemma run_frame ops : forall rb rb',
  run rb ops = Returns rb' ->
  m_capacity rb' = m_capacity rb /\ m_size_bytes rb' = m_size_bytes rb.
Proof.
  induction ops as [|o ops IH]; intros rb rb'.
  - cbn. by intros [= <-].
  - cbn [run]. destruct (call rb o) as [[rb1 n]| |] eqn:Hcall; [|done..].
    cbn [bind fst]. intros Hrun.
    destruct (IH rb1 rb' Hrun) as (Hc & Hb).
    assert (Hstep : m_capacity rb1 = m_capacity rb
                    /\ m_size_bytes rb1 = m_size_bytes rb).
    { destruct o as [data|output|]; cbn [call] in Hcall.
      - destruct (write rb data) as [rb2| |] eqn:Hw; [|done..].
        injection Hcall as <- _.
        by destruct (write_cursors _ _ _ Hw) as (? & ? & _).
      - destruct (read rb output) as [[[rb2 out2] n2]| |] eqn:Hr; [|done..].
        injection Hcall as <- _.
        by destruct (read_cursors _ _ _ _ _ Hr) as (? & ? & _).
      - by injection Hcall as <- _. }
    destruct Hstep as (Hc1 & Hb1). split; congruence.
Qed.

(** A well-formed buffer was constructed well formed. *)
Lemma constructed_wf os requested ops rb0 rb :
  construct os requested = Returns rb0 ->
  run rb0 ops = Returns rb ->
  wf rb -> wf rb0.
Proof.
  intros Hc Hrun Hwf.
  destruct (run_frame _ _ _ Hrun) as (Hcap & Hbytes).
  destruct (wf_region rb Hwf) as (_ & Hpos & _).
  destruct Hwf as (Hcap0 & _ & _ & Hres & _).
  destruct (construct_inv _ _ _ Hc) as (_ & _ & ->).
  cbn [m_capacity m_size_bytes] in Hcap, Hbytes.
  unfold wf, size. cbn [m_capacity m_size_bytes m_buffer m_head m_tail].
  rewrite length_replicate. change (wrap (0 - 0)) with 0.
  change (2 ^ SIZE_WIDTH) with 18446744073709551616 in *.
  repeat split; lia.
Qed.

(** **C6.**  On every well-formed buffer, whatever its cursors, a read
    into a span of [M] elements returns [to_copy = min(size(), M)], moves
    [m_tail] on by that, modulo [2^64], and changes nothing else; the span
    keeps its length and, past the first [to_copy] places, its elements.
    While [m_tail <= m_head], [size()] is [m_head - m_tail] and [m_tail]
    does not wrap.  When the buffer was reached from a constructor whose
    region the element size divides, by calls with writes within the
    capacity and fewer than [2^64] elements written, the first [to_copy]
    places of the span are the oldest elements written and not yet read
    or overwritten, in the order they were written.  On an empty buffer,
    so on a constructed and on a cleared one, the read returns [0] and
    changes neither the buffer nor the span, and the buffer is still
    empty. *)
Theorem read_is_partial rb (output : list T) :
  wf rb ->
  let to_copy := Z.min (size rb) (span_size output) in
  exists output',
    read rb output
    = Returns
        ({| m_size_bytes := m_size_bytes rb;
            m_capacity := m_capacity rb;
            m_buffer := m_buffer rb;
            m_head := m_head rb;
            m_tail := wrap (m_tail rb + to_copy) |},
         output', to_copy)
    /\ 0 <= to_copy <= span_size output
    /\ length output' = length output
    /\ take (Z.to_nat to_copy) output'
       = map (fun i : nat =>
                object_at rb (m_tail rb mod m_capacity rb + Z.of_nat i))
           (seq 0 (Z.to_nat to_copy))
    /\ drop (Z.to_nat to_copy) output' = drop (Z.to_nat to_copy) output
    /\ (m_tail rb <= m_head rb ->
        to_copy = Z.min (m_head rb - m_tail rb) (span_size output)
        /\ wrap (m_tail rb + to_copy) = m_tail rb + to_copy)
    /\ (forall os requested ops rb0,
          construct os requested = Returns rb0 ->
          (sizeof | m_size_bytes rb0) ->
          bounded (capacity rb0) ops ->
          written ops < 2 ^ SIZE_WIDTH ->
          run rb0 ops = Returns rb ->
          size rb = Z.of_nat (length (queue_after (capacity rb0) [] ops))
          /\ take (Z.to_nat to_copy) output'
             = take (Z.to_nat to_copy) (queue_after (capacity rb0) [] ops))
    /\ (empty rb = true -> read rb output = Returns (rb, output, 0))
    /\ (forall os requested,
          construct os requested = Returns rb ->
          read rb output = Returns (rb, output, 0) /\ empty rb = true)
    /\ read (clear rb) output = Returns (clear rb, output, 0)
    /\ empty (clear rb) = true.
Proof.
  intros Hwf to_copy.
  pose proof (span_size_nonneg output) as HM.
  pose proof (wrap_range (m_head rb - m_tail rb)) as Hsz. fold (size rb) in Hsz.
  assert (Hto : 0 <= to_copy <= span_size output) by (unfold to_copy; lia).
  pose proof (read_objects rb output Hwf) as Hread.
  cbn zeta in Hread. fold to_copy in Hread.
  eexists. split; [exact Hread|]. split; [done|].
  assert (Hobjs : length (map (fun i : nat =>
              object_at rb (m_tail rb mod m_capacity rb + Z.of_nat i))
           (seq 0 (Z.to_nat to_copy))) = Z.to_nat to_copy)
    by (by rewrite length_map, length_seq).
  split.
  { rewrite length_app, Hobjs, length_drop. unfold span_size in Hto. lia. }
  split.
  { by rewrite <- Hobjs at 1; rewrite take_app_length. }
  split.
  { by rewrite <- Hobjs at 1; rewrite drop_app_length. }
  split.
  { intros Hord. destruct Hwf as (_ & _ & _ & _ & Hh & Ht & _).
    assert (Hsize : size rb = m_head rb - m_tail rb)
      by (unfold size; apply wrap_small; lia).
    unfold to_copy in *. rewrite Hsize in *.
    split; [done|]. apply wrap_small. lia. }
  split.
  { intros os requested ops rb0 Hc Hdiv Hb Hfit Hrun.
    pose proof (constructed_wf _ _ _ _ _ Hc Hrun Hwf) as Hwf0.
    destruct (construct_linear _ _ _ Hc) as (Hlin0 & Hh0 & Ht0).
    pose proof (aligned_divides _ Hwf0 Hdiv) as Hal0.
    assert (Hq0 : holds rb0 []) by (apply holds_empty; lia).
    unfold capacity in *.
    destruct (run_holds ops rb0 [] 0 rb Hwf0 Hal0 Hlin0 Hq0 Hb)
      as (_ & Hal & Hlin & Hq); [lia|lia|done|].
    set (q := queue_after (m_capacity rb0) [] ops) in *.
    assert (Hm : models rb q) by done.
    destruct (models_read rb q output Hm) as (rb' & Hr & _).
    rewrite Hread in Hr. injection Hr as _ Hout Hn.
    split; [by apply models_size|].
    rewrite Hout, Hn, Nat2Z.id.
    rewrite take_app_le by (rewrite length_take; lia).
    rewrite take_take. f_equal. lia. }
  split.
  { intros He. apply Z.eqb_eq in He. by apply read_empty. }
  split.
  { intros os requested Hc.
    destruct (construct_linear _ _ _ Hc) as (_ & Hh0 & Ht0).
    split; [apply read_empty; [done|lia]|].
    unfold empty. rewrite Hh0, Ht0. done. }
  split; [|done].
  apply read_empty; [by apply clear_wf|done].
Qed.

End Oldest.

(** ** Sizes, empty spans, and reads in a row *)

Section Accounting.

Context {T : Type} `{RingBufferElement T}.

Lemma RingBuffer_eq (a b : RingBuffer) :
  m_size_bytes a = m_size_bytes b -> m_capacity a = m_capacity b ->
  m_buffer a = m_buffer b -> m_head a = m_head b -> m_tail a = m_tail b ->
  a = b.
Proof. destruct a, b. cbn. by intros -> -> -> -> ->. Qed.

(** Any sequence of calls that returns keeps the invariant, the region and
    the capacity. *)
Lemma run_wf ops : forall rb rb',
  wf rb -> run rb ops = Returns rb' ->
  wf rb' /\ m_capacity rb' = m_capacity rb
  /\ m_size_bytes rb' = m_size_bytes rb.
Proof.
  induction ops as [|o ops IH]; intros rb rb' Hwf.
  - cbn. by intros [= <-].
  - cbn [run]. destruct (call rb o) as [[rb1 n]| |] eqn:Hcall; [|done..].
    cbn [bind fst]. intros Hrun.
    assert (Hstep : wf rb1 /\ m_capacity rb1 = m_capacity rb
                    /\ m_size_bytes rb1 = m_size_bytes rb).
    { destruct o as [data|output|]; cbn [call] in Hcall.
      - destruct (write rb data) as [rb2| |] eqn:Hw; [|done..].
        injection Hcall as <- _.
        destruct (write_cursors _ _ _ Hw) as (Hc & Hb & _).
        split; [by eapply write_wf|done].
      - destruct (read rb output) as [[[rb2 out2] n2]| |] eqn:Hr; [|done..].
        injection Hcall as <- _.
        destruct (read_cursors _ _ _ _ _ Hr) as (Hc & Hb & _).
        split; [by eapply read_wf|done].
      - injection Hcall as <- _. split; [by apply clear_wf|done]. }
    destruct Hstep as (Hwf1 & Hc1 & Hb1).
    destruct (IH rb1 rb' Hwf1 Hrun) as (Hwf' & Hc' & Hb').
    split; [done|]. split; congruence.
Qed.

(** **X4.**  Whatever is written to a constructed buffer, and however
    long the spans, after every sequence of calls that returns the
    capacity and the region are the ones the constructor chose and
    [size()] is at most [capacity()]: no bound on the number of elements
    written is needed, the count is right across a wrap of the [size_t]
    cursors. *)
Theorem size_within_capacity os requested ops rb0 rb :
  fits os requested ->
  construct os requested = Returns rb0 ->
  run rb0 ops = Returns rb ->
  capacity rb = capacity rb0
  /\ m_size_bytes rb = m_size_bytes rb0
  /\ 0 <= size rb <= capacity rb.
Proof.
  intros Hfits Hc Hrun.
  destruct (construct_wf _ _ _ Hfits Hc) as (Hwf0 & _).
  destruct (run_wf ops rb0 rb Hwf0 Hrun) as (Hwf & Hcap & Hbytes).
  unfold capacity. split; [done|]. split; [done|].
  destruct Hwf as (_ & _ & _ & _ & _ & _ & Hsize).
  pose proof (wrap_range (m_head rb - m_tail rb)). unfold size in *. lia.
Qed.

(** **X5.**  On a well-formed buffer a write of [L <= capacity()] elements
    makes [size()] the smaller of [size() + L] and [capacity()], and a read
    that returns [n] takes [n] off it, where [n] is the smaller of
    [size()] and the length of the span.  This holds for every element type
    and at every value of the cursors. *)
Theorem size_accounting rb (data output : list T) :
  wf rb ->
  span_size data <= capacity rb ->
  exists rb1,
    write rb data = Returns rb1
    /\ size rb1 = Z.min (size rb + span_size data) (capacity rb)
    /\ exists rb2 output' n,
         read rb1 output = Returns (rb2, output', n)
         /\ n = Z.min (size rb1) (span_size output)
         /\ size rb2 = size rb1 - n.
Proof.
  intros Hwf Hlen. unfold capacity in *.
  pose proof (write_returns rb data Hwf Hlen) as Hw.
  pose proof (write_wf _ _ _ Hwf Hw) as Hwf1.
  pose proof (read_returns _ output Hwf1) as Hr. cbn zeta in Hr.
  eexists. split; [exact Hw|]. split.
  - pose proof (span_size_nonneg data).
    destruct (wf_region rb Hwf) as (Hle & _ & _).
    destruct Hwf as (Hcap & _ & _ & Hres & Hh & Ht & Hsize).
    pose proof sizeof_pos.
    assert (m_capacity rb <= m_size_bytes rb) by nia.
    unfold size in *. cbn [m_head m_tail].
    destruct (Z.ltb_spec (m_capacity rb)
                (wrap (m_head rb - m_tail rb) + span_size data)); wrap_arith.
  - eexists _, _, _. split; [exact Hr|]. split; [done|].
    pose proof (span_size_nonneg output).
    destruct Hwf1 as (_ & _ & _ & _ & Hh & Ht & Hsize).
    set (rb1 := {| m_size_bytes := _ |}) in *.
    unfold size in *. cbn [m_head m_tail]. wrap_arith.
Qed.

(** **X6.**  [empty()] says the same as [size() == 0]. *)
Theorem empty_iff_size_zero rb :
  0 <= m_head rb < 2 ^ SIZE_WIDTH ->
  0 <= m_tail rb < 2 ^ SIZE_WIDTH ->
  empty rb = (size rb =? 0).
Proof.
  intros Hh Ht. unfold empty, size.
  destruct (Z.eqb_spec (m_head rb) (m_tail rb)) as [Heq|Hne];
  destruct (Z.eqb_spec (wrap (m_head rb - m_tail rb)) 0) as [Hz|Hnz];
    try done; exfalso; wrap_arith.
Qed.

(** **X7.**  Empty spans: on a well-formed buffer a write of no elements
    and a read into a span of no elements return and change nothing. *)
Theorem empty_spans_change_nothing rb :
  wf rb ->
  write rb ([] : list T) = Returns rb
  /\ read rb ([] : list T) = Returns (rb, [], 0).
Proof.
  intros Hwf. split.
  - rewrite (write_returns rb [] Hwf)
      by (destruct Hwf as (Hcap & _); unfold span_size; cbn; lia).
    destruct Hwf as (Hcap & _ & _ & _ & Hh & Ht & Hsize).
    f_equal. apply RingBuffer_eq; cbn [m_size_bytes m_capacity m_buffer
      m_head m_tail span_bytes map concat memcpy_to]; try done.
    + change (span_size []) with 0. rewrite Z.add_0_r. by apply wrap_small.
    + change (span_size []) with 0. rewrite Z.add_0_r.
      destruct (Z.ltb_spec (m_capacity rb) (size rb)); [lia|done].
  - rewrite (read_returns rb [] Hwf). cbn zeta.
    pose proof (wrap_range (m_head rb - m_tail rb)) as Hs.
    change (span_size []) with 0. unfold size.
    rewrite Z.min_r by lia. cbn [Z.to_nat objects drop app Z.mul].
    destruct Hwf as (Hcap & _ & _ & _ & Hh & Ht & Hsize).
    rewrite Z.add_0_r, wrap_small by done. by destruct rb.
Qed.

(** **X3.**  For element sizes that divide the region, and as long as the
    cursors have not wrapped ([0 <= m_tail <= m_head <= m_tail +
    m_capacity]), two reads in a row are one read into the two spans put
    together: the same elements reach the spans, the counts add up, and
    the buffer ends in the same state. *)
Theorem reads_compose rb (out1 out2 : list T) :
  wf rb -> aligned rb -> linear rb ->
  bind (read rb out1) (fun r1 =>
    bind (read r1.1.1 out2) (fun r2 =>
      Returns (r2.1.1, r1.1.2 ++ r2.1.2, r1.2 + r2.2)))
  = read rb (out1 ++ out2).
Proof.
  intros Hwf Hal Hlin.
  destruct (models_some rb Hwf Hal Hlin) as (q & Hq).
  destruct (models_read rb q out1 Hq) as (rb1 & Hr1 & Hq1 & _).
  destruct (models_read rb1 _ out2 Hq1) as (rb2 & Hr2 & _).
  destruct (models_read rb q (out1 ++ out2) Hq) as (rb' & Hr & _).
  rewrite Hr1. cbn [bind fst snd]. rewrite Hr2. cbn [bind fst snd].
  rewrite Hr. rewrite length_drop, length_app.
  destruct (read_cursors _ _ _ _ _ Hr1) as (Hc1 & Hb1 & Hm1 & Hh1 & _ & Ht1).
  destruct (read_cursors _ _ _ _ _ Hr2) as (Hc2 & Hb2 & Hm2 & Hh2 & _ & Ht2).
  destruct (read_cursors _ _ _ _ _ Hr) as (Hc & Hb & Hm & Hh & _ & Ht).
  rewrite length_drop in Ht2. rewrite length_app in Ht.
  do 2 f_equal; [f_equal|].
  - apply RingBuffer_eq; try congruence.
    rewrite Ht2, Ht1, Ht, wrap_add_l. f_equal. lia.
  - destruct (decide (length q <= length out1)%nat) as [Hle|Hgt].
    + rewrite (take_ge q (length out1)), (drop_ge q (length out1)) by lia.
      rewrite (take_ge q) by lia. rewrite drop_app_le by lia.
      replace (length q - length out1)%nat with 0%nat by lia.
      by rewrite take_nil, drop_0, <- app_assoc.
    + rewrite (drop_ge out1), app_nil_r by lia.
      rewrite drop_app_ge by lia.
      by rewrite <- take_take_drop, <- app_assoc.
  - lia.
Qed.

End Accounting.

(** ** What the constructor asks for, and what a lifetime gives back *)

Section Lifetime.

Context {T : Type} `{RingBufferElement T}.

Lemma replay_app calls1 calls2 r :
  replay r (calls1 ++ calls2)
  = match replay r calls1 with
    | Some r' => replay r' calls2
    | None => None
    end.
Proof.
  revert r. induction calls1 as [|c calls1 IH]; intros r; [done|].
  cbn [app replay]. destruct (effect r c); [apply IH|done].
Qed.

(** The constructor of the class is the constructor with its calls. *)
Lemma construct_calls_outcome os requested :
  (construct_calls os requested).2 = construct os requested.
Proof.
  unfold construct_calls, construct, get_page_size.
  destruct (requested =? 0); [done|].
  destruct (sysconf_pagesize os <=? 0); [done|]. cbn [bind].
  destruct (memfd_create_ok os); [|done].
  destruct (ftruncate_ok os); [|done].
  destruct (mmap_reserve_ok os); [|done].
  destruct (mmap_first_ok os); [|done].
  destruct (mmap_second_ok os); done.
Qed.

(** What is held when the constructor is done. *)
Lemma construct_calls_replay os requested :
  replay nothing_held (construct_calls os requested).1
  = Some {| descriptor := false;
            reserved :=
              match construct os requested with
              | Returns rb => Some (reservation rb)
              | _ => None
              end |}.
Proof.
  unfold construct_calls, construct, get_page_size.
  destruct (requested =? 0); [done|].
  destruct (sysconf_pagesize os <=? 0); [done|]. cbn [bind].
  destruct (memfd_create_ok os); [|done].
  destruct (ftruncate_ok os); [|done].
  destruct (mmap_reserve_ok os); [|done].
  destruct (mmap_first_ok os);
    [|cbn; by rewrite Z.eqb_refl].
  destruct (mmap_second_ok os); [done|].
  cbn. by rewrite Z.eqb_refl.
Qed.

(** **X8.**  Whatever the host answers, when the constructor returns or
    throws, the descriptor of the memory object is closed, no call was
    made on a descriptor or a reservation that was not held, and the
    reservation of [2 * m_size_bytes] bytes is held exactly when the
    constructor returned: a failing step leaves nothing behind. *)
Theorem constructor_leaves_nothing_behind os requested :
  (construct_calls os requested).2 = construct os requested
  /\ replay nothing_held (construct_calls os requested).1
     = Some {| descriptor := false;
               reserved :=
                 match construct os requested with
                 | Returns rb => Some (reservation rb)
                 | _ => None
                 end |}.
Proof.
  split; [apply construct_calls_outcome | apply construct_calls_replay].
Qed.

Lemma relay_gives n : forall o,
  (relay n o).1 = o
  /\ Forall (fun x => x = {| mapped := false; members := members o |})
       (relay n o).2.
Proof.
  induction n as [|n IH]; intros o; [by destruct o|].
  cbn [relay move].
  destruct (relay n {| mapped := mapped o; members := members o |})
    as [final others] eqn:Hrelay.
  specialize (IH {| mapped := mapped o; members := members o |}).
  rewrite Hrelay in IH. destruct IH as (Hfinal & Hothers).
  cbn [fst snd] in *. split; [by destruct o|].
  constructor; [done|]. exact Hothers.
Qed.

Lemma destroy_unmapped objs :
  Forall (fun x : object => mapped x = false) objs ->
  flat_map destroy objs = [].
Proof.
  induction 1 as [|o objs Ho _ IH]; [done|].
  cbn [flat_map]. unfold destroy at 1. by rewrite Ho, IH.
Qed.

(** **X9.**  After a constructor that returned, however often the object
    is moved and in whatever order the objects are destroyed, the
    destructors unmap the reservation once, with the length it was
    reserved with, and then nothing is held; every moved-from object still
    has the members of the buffer. *)
Theorem mapping_released_once os requested calls rb n objs :
  construct_calls os requested = (calls, Returns rb) ->
  Permutation objs
    ((relay n {| mapped := true; members := rb |}).1
       :: (relay n {| mapped := true; members := rb |}).2) ->
  flat_map destroy objs = [munmap (reservation rb)]
  /\ replay nothing_held (calls ++ flat_map destroy objs)
     = Some nothing_held
  /\ Forall (fun o => members o = rb) objs.
Proof.
  intros Hcalls Hperm.
  destruct (relay_gives n {| mapped := true; members := rb |})
    as (Hfinal & Hothers).
  rewrite Hfinal in Hperm. cbn [members] in Hothers.
  set (others := (relay n {| mapped := true; members := rb |}).2) in *.
  assert (Hflat : flat_map destroy objs = [munmap (reservation rb)]).
  { assert (Hin : In {| mapped := true; members := rb |} objs).
    { eapply Permutation_in; [symmetry; exact Hperm|]. by left. }
    apply in_split in Hin as (l1 & l2 & ->).
    apply Permutation_sym, Permutation_cons_app_inv in Hperm.
    assert (Hun : Forall (fun x : object => mapped x = false) (l1 ++ l2)).
    { eapply Permutation_Forall; [exact Hperm|].
      eapply Forall_impl; [exact Hothers|]. by intros x ->. }
    apply Forall_app in Hun as (Hun1 & Hun2).
    rewrite flat_map_app. cbn [flat_map].
    by rewrite (destroy_unmapped l1), (destroy_unmapped l2). }
  split; [done|]. split.
  - rewrite Hflat, replay_app.
    pose proof (construct_calls_replay os requested) as Hheld.
    pose proof (construct_calls_outcome os requested) as Hout.
    rewrite Hcalls in Hheld, Hout. cbn [fst snd] in Hheld, Hout.
    rewrite <- Hout in Hheld. rewrite Hheld. cbn.
    by rewrite Z.eqb_refl.
  - eapply Permutation_Forall; [symmetry; exact Hperm|].
    constructor; [done|].
    eapply Forall_impl; [exact Hothers|]. by intros x ->.
Qed.

Lemma construct_same_region os requested1 requested2 :
  requested1 <> 0 -> requested2 <> 0 ->
  round_to_page (sysconf_pagesize os) (wrap (requested1 * sizeof))
  = round_to_page (sysconf_pagesize os) (wrap (requested2 * sizeof)) ->
  construct os requested1 = construct os requested2.
Proof.
  intros H1 H2 Heq. unfold construct, get_page_size.
  destruct (Z.eqb_spec requested1 0) as [|_]; [done|].
  destruct (Z.eqb_spec requested2 0) as [|_]; [done|].
  destruct (sysconf_pagesize os <=? 0); [done|].
  cbn [bind]. by rewrite Heq.
Qed.

(** **X10.**  The capacity a constructor reports is a request that gives
    the same buffer again: constructing with [capacity()] of a buffer
    yields the region and the capacity of that buffer, which are at least
    what was first requested. *)
Theorem same_capacity_again os requested rb :
  fits os requested ->
  construct os requested = Returns rb ->
  construct os (capacity rb) = Returns rb
  /\ requested <= capacity rb.
Proof.
  intros Hfits Hc. pose proof Hfits as (Hreq & Hfit).
  destruct (construct_wf _ _ _ Hfits Hc) as (Hwf & _).
  destruct (construct_inv _ _ _ Hc) as (_ & Hps & Hrb).
  destruct (wf_region rb Hwf) as (Hle & _ & _).
  pose proof sizeof_pos as Hs.
  assert (Hn : 0 < requested * sizeof) by nia.
  destruct (round_to_page_least (sysconf_pagesize os) (requested * sizeof))
    as (Hmul & Hge & Hmin); [lia..|].
  pose proof (round_to_page_below (sysconf_pagesize os) (requested * sizeof)
                Hps Hn ltac:(lia)) as Hup.
  assert (Hbytes : m_size_bytes rb
                   = round_to_page (sysconf_pagesize os) (requested * sizeof)).
  { rewrite Hrb. cbn. by rewrite wrap_small by lia. }
  rewrite <- Hbytes in Hmul, Hge, Hmin, Hup.
  assert (Hlow : requested <= capacity rb).
  { destruct Hwf as (_ & Hcap & _). unfold capacity. rewrite Hcap.
    apply Z.div_le_lower_bound; lia. }
  split; [|done]. unfold capacity in *.
  rewrite <- Hc. apply construct_same_region; [lia|lia|].
  rewrite !wrap_small by nia. rewrite <- Hbytes.
  destruct (round_to_page_least (sysconf_pagesize os)
              (m_capacity rb * sizeof)) as (Hmul' & Hge' & Hmin');
    [lia|nia|lia|].
  apply Z.le_antisymm.
  - by apply Hmin'.
  - apply Hmin; [done|nia].
Qed.

(** **X11.**  A request whose size in bytes does not fit a [size_t] is not
    refused: the product wraps, and whenever the constructor returns, the
    buffer it returns has fewer than the requested elements. *)
Theorem overflowing_request_is_served os requested rb :
  0 < requested ->
  2 ^ SIZE_WIDTH <= requested * sizeof ->
  sysconf_pagesize os < 2 ^ SIZE_WIDTH ->
  construct os requested = Returns rb ->
  m_size_bytes rb < requested * sizeof
  /\ capacity rb < requested.
Proof.
  intros Hreq Hover Hlong Hc.
  destruct (construct_inv _ _ _ Hc) as (_ & Hps & ->).
  unfold capacity. cbn [m_size_bytes m_capacity].
  pose proof sizeof_pos as Hs.
  set (bytes := round_to_page _ _).
  assert (Hbytes : 0 <= bytes < 2 ^ SIZE_WIDTH).
  { unfold bytes, round_to_page.
    destruct (_ =? 0); [lia|apply wrap_range]. }
  split; [lia|].
  assert (Hs0 : sizeof <> 0) by lia.
  pose proof (Z.mul_div_le bytes sizeof Hs). nia.
Qed.

End Lifetime.

(** ** The tests of [main.cpp]

    The tests run on the queue that the buffer models: each call is
    replaced by what the section [Queue] says it returns. *)

Section Steps.
Context {T : Type} `{RingBufferElement T}.

Lemma keep_latest_short cap (q : list T) :
  Z.of_nat (length q) <= cap -> keep_latest cap q = q.
Proof.
  intros Hle. unfold keep_latest.
  by replace (length q - Z.to_nat cap)%nat with 0%nat by lia.
Qed.

Lemma keep_latest_long cap (q : list T) n :
  0 <= cap -> Z.of_nat (length q) = cap + Z.of_nat n ->
  keep_latest cap q = drop n q.
Proof.
  intros Hcap Hlen. unfold keep_latest. f_equal. lia.
Qed.

Lemma models_bounds rb (q : list T) :
  models rb q ->
  0 < capacity rb /\ 2 * capacity rb < 2 ^ SIZE_WIDTH.
Proof.
  intros (Hwf & _). destruct (wf_region rb Hwf) as (Hle & _).
  destruct Hwf as (Hcap & _ & _ & Hsz & _). unfold capacity.
  pose proof sizeof_pos as Hs. split; [done|]. nia.
Qed.

End Steps.

(** **X12.**  [test_wrap_around] does not pass: on every host on which the
    constructor succeeds, with assertions compiled in, its assertion at
    line 44 fails.  The second write overwrites two elements, so the read
    starts at the third element of the padding, and the element at
    [cap - 10] of the output is ['3'], not ['1']. *)
Theorem test_wrap_around_fails os :
  obliging os -> sysconf_pagesize os <= 2 ^ 32 ->
  test_wrap_around os = AssertionFails 44.
Proof.
  intros Hob Hps.
  destruct (construct_obliging (T:=byte) os 4096 Hob) as [rb0 Hc]; [done|].
  assert (Hfits : fits (T:=byte) os 4096).
  { split; [lia|]. change (sizeof (T:=byte)) with 1.
    change (2 ^ SIZE_WIDTH) with 18446744073709551616.
    change (2 ^ 32) with 4294967296 in Hps. lia. }
  destruct (models_construct os 4096 rb0 Hfits (Z.divide_1_l _) Hc)
    as (Hm0 & Hh0 & Hcap0).
  unfold test_wrap_around. rewrite Hc. cbn [expect].
  destruct (models_bounds _ _ Hm0) as (_ & Hcap).
  change (2 ^ SIZE_WIDTH) with 18446744073709551616 in Hcap.
  set (cap := capacity rb0) in *.
  rewrite !wrap_small
    by (change (2 ^ SIZE_WIDTH) with 18446744073709551616; lia).
  set (padding := replicate (Z.to_nat (cap - 10)) Byte.x61).
  set (overlap := [Byte.x31; Byte.x32; Byte.x33; Byte.x34; Byte.x35; Byte.x36;
     Byte.x37; Byte.x38; Byte.x39; Byte.x30; Byte.x58; Byte.x59]).
  assert (Hlen : length padding = Z.to_nat (cap - 10))
    by apply length_replicate.
  destruct (models_write rb0 [] padding Hm0) as (rb1 & Hw1 & Hm1 & Hcap1 & Hh1).
  { unfold span_size. fold cap. lia. }
  { unfold span_size. change (2 ^ SIZE_WIDTH) with 18446744073709551616. lia. }
  rewrite Hw1. cbn [expect].
  fold cap in Hm1, Hcap1. cbn [app] in Hm1.
  rewrite keep_latest_short in Hm1 by lia.
  destruct (models_write rb1 padding overlap Hm1) as (rb2 & Hw2 & Hm2 & Hcap2 & Hh2).
  { unfold span_size. rewrite Hcap1. cbn. lia. }
  { unfold span_size. change (2 ^ SIZE_WIDTH) with 18446744073709551616.
    rewrite Hh1. unfold span_size. cbn [length overlap]. lia. }
  rewrite Hw2. cbn [expect].
  rewrite Hcap1 in Hm2, Hcap2.
  rewrite (keep_latest_long _ _ 2) in Hm2
    by (rewrite ?length_app; cbn [length overlap]; lia).
  rewrite (models_size _ _ Hm2), length_drop, length_app.
  cbn [length overlap].
  replace (Z.of_nat (length padding + 12 - 2)) with cap by lia.
  rewrite Z.eqb_refl. cbn [assert_at].
  destruct (models_read rb2 _ (replicate (Z.to_nat cap) Byte.x00) Hm2)
    as (rb3 & Hr3 & _).
  rewrite Hr3. cbn [expect fst snd].
  rewrite length_replicate, length_drop, length_app. cbn [length overlap].
  rewrite take_ge by (rewrite length_drop, length_app; cbn [length overlap]; lia).
  rewrite (drop_ge (replicate _ _)) by (rewrite length_replicate; lia).
  rewrite app_nil_r.
  erewrite (list_lookup_total_correct _ _ Byte.x33); [done|].
  rewrite lookup_drop, lookup_app_r by lia.
  replace (2 + Z.to_nat (cap - 10) - length padding)%nat with 2%nat by lia.
  done.
Qed.

Lemma fits_int os requested :
  0 < requested <= 4096 -> sysconf_pagesize os <= 2 ^ 32 ->
  fits (T:=int) os requested.
Proof.
  intros Hreq Hps. split; [lia|]. change (sizeof (T:=int)) with 4.
  change (2 ^ SIZE_WIDTH) with 18446744073709551616.
  change (2 ^ 32) with 4294967296 in Hps. lia.
Qed.

Lemma test_simple_write_read_passes os out :
  obliging os -> (4 | sysconf_pagesize os) -> sysconf_pagesize os <= 2 ^ 32 ->
  length out = 5%nat ->
  test_simple_write_read os out = Passed.
Proof.
  intros Hob Hdiv Hps Hout.
  destruct out as [|o0 [|o1 [|o2 [|o3 [|o4 [|]]]]]]; try done. clear Hout.
  destruct (construct_obliging (T:=int) os 1024 Hob) as [rb0 Hc]; [done|].
  assert (Hfits : fits (T:=int) os 1024) by (apply fits_int; [lia|done]).
  destruct (models_construct os 1024 rb0 Hfits Hdiv Hc) as (Hm0 & Hh0 & Hcap0).
  unfold test_simple_write_read. rewrite Hc. cbn [expect].
  set (input := map int_of_Z [1; 2; 3; 4; 5]).
  destruct (models_write rb0 [] input Hm0) as (rb1 & Hw1 & Hm1 & Hcap1 & Hh1).
  { unfold span_size. cbn. lia. }
  { rewrite Hh0. done. }
  rewrite Hw1. cbn [expect]. cbn [app] in Hm1.
  rewrite keep_latest_short in Hm1 by (cbn; lia).
  rewrite (models_size _ _ Hm1). cbn [assert_at length input map Z.of_nat].
  destruct (models_read rb1 _ [o0; o1; o2; o3; o4] Hm1)
    as (rb2 & Hr2 & Hm2 & _).
  rewrite Hr2. cbn [expect]. cbn in Hm2.
  rewrite (models_empty _ _ Hm2). done.
Qed.

Lemma test_overwrite_logic_passes os :
  obliging os -> (4 | sysconf_pagesize os) -> sysconf_pagesize os <= 2 ^ 32 ->
  test_overwrite_logic os = Passed.
Proof.
  intros Hob Hdiv Hps.
  destruct (construct_obliging (T:=int) os 4096 Hob) as [rb0 Hc]; [done|].
  assert (Hfits : fits (T:=int) os 4096) by (apply fits_int; [lia|done]).
  destruct (models_construct os 4096 rb0 Hfits Hdiv Hc) as (Hm0 & Hh0 & Hcap0).
  unfold test_overwrite_logic. rewrite Hc. cbn [expect].
  destruct (models_bounds _ _ Hm0) as (_ & Hcap).
  change (2 ^ SIZE_WIDTH) with 18446744073709551616 in Hcap.
  set (cap := capacity rb0) in *.
  rewrite !wrap_small
    by (change (2 ^ SIZE_WIDTH) with 18446744073709551616; lia).
  set (first := replicate (Z.to_nat cap) (int_of_Z 1)).
  set (second := map int_of_Z [9; 9; 9]).
  assert (Hlen : length first = Z.to_nat cap) by apply length_replicate.
  destruct (models_write rb0 [] first Hm0) as (rb1 & Hw1 & Hm1 & Hcap1 & Hh1).
  { unfold span_size. fold cap. lia. }
  { unfold span_size. change (2 ^ SIZE_WIDTH) with 18446744073709551616. lia. }
  rewrite Hw1. cbn [expect].
  fold cap in Hm1, Hcap1. cbn [app] in Hm1.
  rewrite keep_latest_short in Hm1 by lia.
  destruct (models_write rb1 first second Hm1)
    as (rb2 & Hw2 & Hm2 & Hcap2 & Hh2).
  { unfold span_size. rewrite Hcap1. cbn. lia. }
  { unfold span_size. change (2 ^ SIZE_WIDTH) with 18446744073709551616.
    rewrite Hh1. unfold span_size. cbn [length second map]. lia. }
  rewrite Hw2. cbn [expect].
  rewrite Hcap1 in Hm2, Hcap2.
  rewrite (keep_latest_long _ _ 3) in Hm2
    by (rewrite ?length_app; cbn [length second map]; lia).
  rewrite (models_size _ _ Hm2), length_drop, length_app.
  cbn [length second map].
  replace (Z.of_nat (length first + 3 - 3)) with cap by lia.
  rewrite Z.eqb_refl. cbn [assert_at].
  destruct (models_read rb2 _ (replicate (Z.to_nat cap) (int_of_Z 0)) Hm2)
    as (rb3 & Hr3 & _).
  rewrite Hr3. cbn [expect fst snd].
  rewrite length_replicate, length_drop, length_app. cbn [length second map].
  rewrite take_ge
    by (rewrite length_drop, length_app; cbn [length second map]; lia).
  rewrite (drop_ge (replicate _ _)) by (rewrite length_replicate; lia).
  rewrite app_nil_r.
  erewrite (list_lookup_total_correct _ (Z.to_nat (cap - 3)) (int_of_Z 9)).
  2:{ rewrite lookup_drop, lookup_app_r by lia.
      by replace (3 + Z.to_nat (cap - 3) - length first)%nat with 0%nat by lia. }
  erewrite (list_lookup_total_correct _ 0%nat (int_of_Z 1)).
  2:{ rewrite lookup_drop, lookup_app_l by lia.
      apply lookup_replicate_2. lia. }
  done.
Qed.

(** **X14.**  [test_empty_read] passes on every host on which the
    constructor succeeds and whose page size is a multiple of
    [sizeof(double)]: a read from a fresh buffer returns 0 and leaves the
    buffer empty, whatever the length and the contents of the array. *)
Theorem test_empty_read_passes os out :
  obliging os -> (8 | sysconf_pagesize os) -> sysconf_pagesize os <= 2 ^ 32 ->
  test_empty_read os out = Passed.
Proof.
  intros Hob Hdiv Hps.
  destruct (construct_obliging (T:=double) os 1024 Hob) as [rb0 Hc]; [done|].
  assert (Hfits : fits (T:=double) os 1024).
  { split; [lia|]. change (sizeof (T:=double)) with 8.
    change (2 ^ SIZE_WIDTH) with 18446744073709551616.
    change (2 ^ 32) with 4294967296 in Hps. lia. }
  destruct (models_construct os 1024 rb0 Hfits Hdiv Hc) as (Hm0 & _).
  unfold test_empty_read. rewrite Hc. cbn [expect].
  destruct (models_read rb0 _ out Hm0) as (rb1 & Hr1 & Hm1 & _).
  rewrite Hr1. cbn [expect length Nat.min Z.of_nat].
  rewrite drop_nil in Hm1. rewrite (models_empty _ _ Hm1). done.
Qed.

Lemma test_clear_passes os :
  obliging os -> (4 | sysconf_pagesize os) -> sysconf_pagesize os <= 2 ^ 32 ->
  test_clear os = Passed.
Proof.
  intros Hob Hdiv Hps.
  destruct (construct_obliging (T:=int) os 1024 Hob) as [rb0 Hc]; [done|].
  assert (Hfits : fits (T:=int) os 1024) by (apply fits_int; [lia|done]).
  destruct (models_construct os 1024 rb0 Hfits Hdiv Hc) as (Hm0 & Hh0 & Hcap0).
  unfold test_clear. rewrite Hc. cbn [expect].
  set (data := map int_of_Z [1; 2; 3]).
  destruct (models_write rb0 [] data Hm0) as (rb1 & Hw1 & Hm1 & _).
  { unfold span_size. cbn. lia. }
  { rewrite Hh0. done. }
  rewrite Hw1. cbn [expect].
  pose proof (models_clear _ _ Hm1) as Hm2.
  rewrite (models_size _ _ Hm2), (models_empty _ _ Hm2). done.
Qed.

Lemma test_partial_reads_passes os out1 out2 :
  obliging os -> (4 | sysconf_pagesize os) -> sysconf_pagesize os <= 2 ^ 32 ->
  length out1 = 3%nat -> length out2 = 7%nat ->
  test_partial_reads os out1 out2 = Passed.
Proof.
  intros Hob Hdiv Hps Hout1 Hout2.
  destruct out1 as [|a0 [|a1 [|a2 [|]]]]; try done. clear Hout1.
  destruct out2 as [|b0 [|b1 [|b2 [|b3 [|b4 [|b5 [|b6 [|]]]]]]]]; try done.
  clear Hout2.
  destruct (construct_obliging (T:=int) os 1024 Hob) as [rb0 Hc]; [done|].
  assert (Hfits : fits (T:=int) os 1024) by (apply fits_int; [lia|done]).
  destruct (models_construct os 1024 rb0 Hfits Hdiv Hc) as (Hm0 & Hh0 & Hcap0).
  unfold test_partial_reads. rewrite Hc. cbn [expect].
  set (data := map int_of_Z [1; 2; 3; 4; 5; 6; 7; 8; 9; 10]).
  destruct (models_write rb0 [] data Hm0) as (rb1 & Hw1 & Hm1 & _).
  { unfold span_size. cbn. lia. }
  { rewrite Hh0. done. }
  rewrite Hw1. cbn [expect]. cbn [app] in Hm1.
  rewrite keep_latest_short in Hm1 by (cbn; lia).
  destruct (models_read rb1 _ [a0; a1; a2] Hm1) as (rb2 & Hr2 & Hm2 & _).
  rewrite Hr2. cbn [expect]. cbn in Hm2.
  rewrite (models_size _ _ Hm2).
  destruct (models_read rb2 _ [b0; b1; b2; b3; b4; b5; b6] Hm2)
    as (rb3 & Hr3 & Hm3 & _).
  rewrite Hr3. cbn [expect]. cbn in Hm3.
  rewrite (models_empty _ _ Hm3). done.
Qed.

(** **X13.**  The tests of [main.cpp] on [RingBuffer<int>] pass on every
    host on which the constructor succeeds and whose page size is a
    multiple of [sizeof(int)], whatever the uninitialised arrays hold: no
    assertion fails, no exception leaves a test, and no call is
    undefined. *)
Theorem int_tests_pass os (out5 out3 out7 : list int) :
  obliging os -> (4 | sysconf_pagesize os) -> sysconf_pagesize os <= 2 ^ 32 ->
  length out5 = 5%nat -> length out3 = 3%nat -> length out7 = 7%nat ->
  test_simple_write_read os out5 = Passed
  /\ test_overwrite_logic os = Passed
  /\ test_clear os = Passed
  /\ test_partial_reads os out3 out7 = Passed.
Proof.
  intros Hob Hdiv Hps H5 H3 H7.
  split; [by apply test_simple_write_read_passes|].
  split; [by apply test_overwrite_logic_passes|].
  split; [by apply test_clear_passes|].
  by apply test_partial_reads_passes.
Qed.

(** * The class at work *)

(** Facts about closed terms, by evaluation. *)
Ltac by_evaluation :=
  vm_compute;
  first [ reflexivity
        | let Hc := fresh in intros Hc; discriminate Hc ].

Ltac all_by_evaluation :=
  repeat match goal with |- _ /\ _ => split end; by_evaluation.

Ltac wf_by_evaluation := unfold wf; all_by_evaluation.

(** The named states are the ones the calls produce. *)
Example construct_rgb : construct (T:=rgb) linux 1 = Returns rgb_fresh.
Proof. by_evaluation. Qed.

Example construct_char : construct (T:=byte) linux 4096 = Returns char_fresh.
Proof. by_evaluation. Qed.

Example write_rgb_near_end :
  write rgb_fresh (replicate 1364 black) = Returns rgb_near_end.
Proof.
  rewrite write_returns; [|wf_by_evaluation|by_evaluation].
  change (span_bytes (replicate 1364 black)) with (replicate 4092 Byte.x00).
  change (m_buffer rgb_fresh) with (replicate 4096 Byte.x00).
  rewrite memcpy_to_replicate. by_evaluation.
Qed.

Example write_rgb_ones :
  write rgb_fresh (replicate 1365 rgb1) = Returns rgb_ones.
Proof.
  rewrite write_returns; [|wf_by_evaluation|by_evaluation].
  rewrite memcpy_to_flat; by_evaluation.
Qed.

Example read_rgb_drained :
  read rgb_near_end (replicate 1364 black)
  = Returns (rgb_drained, replicate 1364 black, 1364).
Proof. by_evaluation. Qed.

Example run_rgb_calls : run rgb_fresh rgb_calls = Returns rgb_after_calls.
Proof. by_evaluation. Qed.

Example run_rgb_writes : run rgb_near_end rgb_writes = Returns rgb_after_writes.
Proof. by_evaluation. Qed.

Example write_rgb_three :
  write rgb_fresh [teal; plum; rgb9] = Returns rgb_three.
Proof. by_evaluation. Qed.


(** The round trip of C1 across the end of the first mapping: two objects
    written from the last slot of an empty [RingBuffer<rgb>]. *)
Lemma round_trip_witness :
  exists rb1 rb2,
    write rgb_drained [teal; plum] = Returns rb1
    /\ read rb1 [black; black]
       = Returns (rb2, [teal; plum], span_size [teal; plum])
    /\ size rb2 = 0
    /\ empty rb2 = true.
Proof.
  apply round_trip;
    [wf_by_evaluation | by_evaluation | by_evaluation | by_evaluation].
Defined.

(** C3 as the specification words it fails on [RingBuffer<rgb> rb(1)]: the
    region has 4096 bytes, the capacity is 1365, and 1365 objects of three
    bytes are 4095 bytes, which is no multiple of the page size. *)
Lemma capacity_rounding_fails_rgb :
  construct (T:=rgb) linux 1 = Returns rgb_fresh
  /\ capacity rgb_fresh * sizeof (T:=rgb) = 4095
  /\ ~ least_multiple (sysconf_pagesize linux) (1 * sizeof (T:=rgb))
         (capacity rgb_fresh * sizeof (T:=rgb)).
Proof.
  split; [by_evaluation|]. split; [by_evaluation|].
  intros ([k Hk] & _).
  change (4095 = k * 4096) in Hk. lia.
Qed.

Lemma capacity_rounding_witness :
  least_multiple (sysconf_pagesize linux) (1 * sizeof (T:=rgb))
    (m_size_bytes rgb_fresh)
  /\ capacity rgb_fresh = m_size_bytes rgb_fresh / sizeof (T:=rgb)
  /\ 1 * sizeof (T:=rgb) <= capacity rgb_fresh * sizeof (T:=rgb)
     <= m_size_bytes rgb_fresh
  /\ m_size_bytes rgb_fresh
     < capacity rgb_fresh * sizeof (T:=rgb) + sizeof (T:=rgb)
  /\ ((sizeof (T:=rgb) | m_size_bytes rgb_fresh) ->
      least_multiple (sysconf_pagesize linux) (1 * sizeof (T:=rgb))
        (capacity rgb_fresh * sizeof (T:=rgb))).
Proof.
  apply (capacity_rounding (T:=rgb) linux 1 rgb_fresh);
    [by_evaluation | by_evaluation | by_evaluation].
Defined.

(** The same for [RingBuffer<char> rb(4096)], whose element size divides
    every region: there the capacity in bytes is the page multiple. *)
Example capacity_rounding_char :
  construct (T:=byte) linux 4096 = Returns char_fresh
  /\ least_multiple (sysconf_pagesize linux) (4096 * sizeof (T:=byte))
       (capacity char_fresh * sizeof (T:=byte)).
Proof.
  split; [by_evaluation|].
  change (least_multiple 4096 4096 4096).
  split; [by exists 1|]. split; [done|]. by intros m' _ Hm.
Qed.

Lemma cursors_in_order_witness :
  m_tail rgb_after_calls <= m_head rgb_after_calls
  /\ m_head rgb_after_calls - m_tail rgb_after_calls <= capacity rgb_after_calls
  /\ size rgb_after_calls = m_head rgb_after_calls - m_tail rgb_after_calls.
Proof.
  apply (cursors_in_order (T:=rgb) linux 1 rgb_calls rgb_fresh);
    [by_evaluation | by_evaluation | by_evaluation].
Defined.

Lemma cursors_never_go_back_witness :
  m_head rgb_after_writes = m_head rgb_near_end + written rgb_writes
  /\ m_head rgb_near_end <= m_head rgb_after_writes
  /\ m_tail rgb_near_end <= m_tail rgb_after_writes
  /\ (m_tail rgb_next.1 = m_tail rgb_after_writes + rgb_next.2
      /\ 0 <= rgb_next.2
      /\ m_head rgb_next.1 = m_head rgb_after_writes).
Proof.
  apply (cursors_never_go_back (T:=rgb) rgb_near_end rgb_writes
           rgb_after_writes (Read [black; black]) rgb_next.1 rgb_next.2).
  - split; [split|]; by_evaluation.
  - by_evaluation.
  - by_evaluation.
  - by_evaluation.
  - by_evaluation.
Defined.


Lemma read_is_partial_witness :
  exists output',
    read int_three [int_of_Z 0; int_of_Z 0]
    = Returns ({| m_size_bytes := 16384;
                  m_capacity := 4096;
                  m_buffer := m_buffer int_three;
                  m_head := 3;
                  m_tail := 2 |},
               output', 2)
    /\ output' = map int_of_Z [1; 2].
Proof.
  destruct (read_is_partial (T:=int) int_three [int_of_Z 0; int_of_Z 0])
    as (output' & Hread & _ & Hlen & _ & _ & _ & Hq & _);
    [wf_by_evaluation|].
  destruct (Hq linux 4096 [Write (map int_of_Z [1; 2; 3])] int_fresh)
    as (_ & Htake).
  - by_evaluation.
  - exists 4096. by_evaluation.
  - intros data [[= <-]|[]]. by_evaluation.
  - by_evaluation.
  - by_evaluation.
  - exists output'. split; [exact Hread|].
    destruct output' as [|a [|b [|c output']]]; try discriminate Hlen.
    exact Htake.
Defined.

Lemma clear_only_resets_cursors_witness :
  capacity (clear rgb_three) = capacity rgb_three
  /\ size (clear rgb_three) = 0
  /\ m_buffer (clear rgb_three) = m_buffer rgb_three
  /\ exists rb1 rb2,
       write (clear rgb_three) [black] = Returns rb1
       /\ read rb1 [rgb9] = Returns (rb2, [black], 1)
       /\ m_head rb2 = 1 /\ m_tail rb2 = 1.
Proof.
  destruct (clear_only_resets_cursors (T:=rgb) rgb_three [black] [rgb9])
    as (Hclear & Hcap & Hsize & _ & _ & rb1 & rb2 & Hw & Hr & Hh & Ht & _);
    [wf_by_evaluation | by_evaluation | by_evaluation |].
  split; [exact Hcap|]. split; [exact Hsize|].
  split; [by rewrite Hclear|].
  exists rb1, rb2. split; [exact Hw|]. split; [exact Hr|].
  split; [exact Hh | exact Ht].
Defined.

(** ** Past the end of [size_t]

    The cursors count modulo [2^64].  One element written and read
    [SIZE_MAX] times takes both cursors of [RingBuffer<char> rb(12288)] to
    [SIZE_MAX]; the next write wraps [m_head]. *)

Lemma run_app {T} `{RingBufferElement T} (ops1 ops2 : list (op (T:=T))) :
  forall rb,
  run rb (ops1 ++ ops2) = bind (run rb ops1) (fun rb' => run rb' ops2).
Proof.
  induction ops1 as [|o ops1 IH]; intros rb; [done|].
  cbn [app run]. destruct (call rb o) as [[rb1 n]| |]; [|done..].
  cbn [bind fst]. apply IH.
Qed.

Lemma wf_char_wide cursor :
  0 <= cursor < 2 ^ SIZE_WIDTH -> wf (T:=byte) (char_wide cursor).
Proof.
  intros Hc. unfold wf, size.
  cbn [char_wide m_size_bytes m_capacity m_buffer m_head m_tail].
  rewrite length_replicate, Z.sub_diag.
  change (sizeof (T:=byte)) with 1.
  change (2 ^ SIZE_WIDTH) with 18446744073709551616 in *.
  change (wrap 0) with 0.
  repeat split; lia.
Qed.

Lemma turn_char_wide cursor :
  0 <= cursor < 2 ^ SIZE_WIDTH ->
  run (char_wide cursor) [Write [Byte.x00]; Read [Byte.x00]]
  = Returns (char_wide (wrap (cursor + 1))).
Proof.
  intros Hc. pose proof (wf_char_wide cursor Hc) as Hwf.
  cbn [run call].
  pose proof (write_returns (char_wide cursor) [Byte.x00] Hwf) as Hw.
  assert (Hsize : size (char_wide cursor) = 0)
    by (unfold size; cbn [char_wide m_head m_tail]; by rewrite Z.sub_diag).
  rewrite Hsize in Hw.
  cbn [char_wide m_size_bytes m_capacity m_buffer m_head m_tail] in Hw.
  change (span_bytes [Byte.x00]) with (replicate 1 Byte.x00) in Hw.
  rewrite memcpy_to_replicate in Hw.
  change (span_size [Byte.x00]) with 1 in Hw.
  change (12288 <? 0 + 1) with false in Hw. cbn iota in Hw.
  rewrite Hw by by_evaluation. cbn [bind fst snd].
  pose proof (write_wf _ _ _ Hwf (Hw ltac:(by_evaluation))) as Hwf1.
  rewrite (read_returns _ [Byte.x00] Hwf1). cbn zeta. cbn [bind fst snd run].
  f_equal. unfold char_wide. f_equal.
  unfold size. cbn [m_head m_tail]. change (span_size [Byte.x00]) with 1.
  wrap_arith.
Qed.

Lemma run_turns n : forall cursor,
  0 <= cursor < 2 ^ SIZE_WIDTH ->
  run (char_wide cursor) (turns n)
  = Returns (char_wide (wrap (cursor + Z.of_nat n))).
Proof.
  induction n as [|n IH]; intros cursor Hc.
  - cbn [turns run]. by rewrite Z.add_0_r, wrap_small.
  - change (turns (S n))
      with ([Write [Byte.x00]; Read [Byte.x00]] ++ turns n).
    rewrite run_app, turn_char_wide by done. cbn [bind].
    rewrite IH by apply wrap_range. do 2 f_equal. wrap_arith.
Qed.

Lemma bounded_turns n cap : 1 <= cap -> bounded cap (turns n).
Proof.
  intros Hcap. induction n as [|n IH]; intros data Hin; [destruct Hin|].
  cbn [turns] in Hin. destruct Hin as [[= <-]|[[=]|Hin]]; [done|by apply IH].
Qed.

Lemma no_clear_turns n : no_clear (turns n).
Proof. unfold no_clear. induction n as [|n IH]; [done|exact IH]. Qed.

Lemma run_turns_to_the_end :
  run (char_wide 0) (turns (Z.to_nat SIZE_MAX)) = Returns (char_wide SIZE_MAX).
Proof.
  rewrite run_turns by (split; by_evaluation).
  rewrite Z2Nat.id by by_evaluation. reflexivity.
Qed.

(** C5 as the specification words it fails once [2^64] elements have been
    written: [RingBuffer<char> rb(12288)], one element written and read
    [2^64 - 1] times, then two elements written.  Every write is within
    the capacity; [m_head] has wrapped to 1, [m_tail] is still
    [2^64 - 1], and [size()] is 2, which is not [m_head - m_tail]. *)
Lemma cursors_cross_after_wrap :
  construct (T:=byte) linux 12288 = Returns (char_wide 0)
  /\ bounded (capacity (char_wide 0))
       (turns (Z.to_nat SIZE_MAX) ++ [Write [Byte.x0b; Byte.x0c]])
  /\ run (char_wide 0)
       (turns (Z.to_nat SIZE_MAX) ++ [Write [Byte.x0b; Byte.x0c]])
     = Returns char_wrapped
  /\ m_head char_wrapped = 1
  /\ m_tail char_wrapped = SIZE_MAX
  /\ ~ m_tail char_wrapped <= m_head char_wrapped
  /\ size char_wrapped = 2
  /\ size char_wrapped <> m_head char_wrapped - m_tail char_wrapped.
Proof.
  split; [by_evaluation|]. split.
  { intros data Hin. apply in_app_or in Hin as [Hin|[[= <-]|[]]].
    - by apply (bounded_turns (Z.to_nat SIZE_MAX)).
    - by_evaluation. }
  split.
  { rewrite run_app, run_turns_to_the_end. cbn [bind]. by_evaluation. }
  change (m_head char_wrapped) with 1.
  change (m_tail char_wrapped) with SIZE_MAX.
  change (size char_wrapped) with 2. unfold SIZE_MAX.
  repeat split; lia.
Qed.

(** C9 as the specification words it fails at the same place: with no
    [clear] in the sequence, the write of two elements takes [m_head] from
    [2^64 - 1] back to 1, and the read after it takes [m_tail] from
    [2^64 - 1] back to 0. *)
Lemma head_goes_back_after_wrap :
  no_clear (turns (Z.to_nat SIZE_MAX))
  /\ run (char_wide 0) (turns (Z.to_nat SIZE_MAX))
     = Returns (char_wide SIZE_MAX)
  /\ call (char_wide SIZE_MAX) (Write [Byte.x0b; Byte.x0c])
     = Returns (char_wrapped, 0)
  /\ m_head char_wrapped < m_head (char_wide SIZE_MAX)
  /\ m_head char_wrapped
     <> m_head (char_wide SIZE_MAX) + span_size [Byte.x0b; Byte.x0c]
  /\ call char_wrapped (Read [Byte.x00]) = Returns (char_wrapped_read, 1)
  /\ m_tail char_wrapped_read < m_tail char_wrapped.
Proof.
  split; [apply no_clear_turns|]. split; [apply run_turns_to_the_end|].
  all_by_evaluation.
Qed.


(** C6 as the specification words it fails on what a read hands out.  On
    [RingBuffer<rgb> rb(1)] with 1364 objects written and read, [teal] and
    [plum] are written in two calls and a read of two gives [teal] and an
    object made of the byte the region has over and two bytes of [plum]:
    the defect of C2 and C10.  On [RingBuffer<char> rb(12288)] with both
    cursors at [2^64 - 1], [0x0b] and [0x0c] are written and one element
    is read; the buffer then has one element, and the read of it gives
    [0x00], not [0x0c]: [m_tail] has wrapped to slot 0, and the element
    lies in slot 4096. *)
Lemma read_returns_what_was_not_written :
  (run rgb_fresh
     [Write (replicate 1364 black); Read (replicate 1364 black);
      Write [teal]; Write [plum]]
   = Returns rgb_two
   /\ size rgb_two = 2
   /\ read rgb_two [black; black]
      = Returns (rgb_two_read, [teal; Rgb Byte.x00 Byte.x04 Byte.x05], 2))
  /\ (run (char_wide 0)
        (turns (Z.to_nat SIZE_MAX) ++ [Write [Byte.x0b; Byte.x0c]])
      = Returns char_wrapped
      /\ read char_wrapped [Byte.x00]
         = Returns (char_wrapped_read, [Byte.x0b], 1)
      /\ size char_wrapped_read = 1
      /\ (exists rb,
            read char_wrapped_read [Byte.x00] = Returns (rb, [Byte.x00], 1))).
Proof.
  split; [split|split].
  - cbn [run call]. rewrite write_rgb_near_end. cbn [bind fst snd].
    rewrite read_rgb_drained. cbn [bind fst snd]. by_evaluation.
  - all_by_evaluation.
  - rewrite run_app, run_turns_to_the_end. cbn [bind]. by_evaluation.
  - split; [by_evaluation|]. split; [by_evaluation|]. eexists. by_evaluation.
Qed.

(** **C4, on the code.**  [write] copies without looking at the length.
    On [RingBuffer<char> rb(4096)] a write of [2 * capacity()] objects
    fits the reservation when it starts at its beginning, as in
    [test_large_input_overwrite]; after one object has been written the
    same write starts one byte in and runs one byte past the end of the
    reservation: the copy is not rejected, not split, and not in bounds. *)
Theorem write_overruns_the_reservation :
  (exists rb, write char_fresh two_laps = Returns rb
              /\ size rb = capacity rb)
  /\ write char_fresh [Byte.x01] = Returns char_one
  /\ capacity char_one < span_size two_laps
  /\ (m_head char_one mod m_capacity char_one) * sizeof (T:=byte)
     + span_size two_laps * sizeof (T:=byte)
     = reservation char_one + 1
  /\ write char_one two_laps = Undefined.
Proof.
  split.
  - destruct (write_defined char_fresh two_laps) as [rb Hw];
      [by_evaluation | by_evaluation |].
    exists rb. split; [done|].
    destruct (write_cursors _ _ _ Hw) as (Hcap & _ & Hh & Ht).
    unfold size, capacity. rewrite Ht, Hh, Hcap. by_evaluation.
  - split; [by_evaluation|]. split; [by_evaluation|].
    split; [by_evaluation|].
    apply write_undefined. by_evaluation.
Qed.

(** **C2, on the code.**  The overwrite scenario on [RingBuffer<rgb> rb(1)]:
    after [capacity()] objects of value 1 and three of value 9 the buffer
    is full, and of its last three objects the first is not a 9 but the
    byte the region has over, followed by two bytes of a 9. *)
Theorem overwrite_breaks_objects_rgb :
  rgb_overwritten = Returns rgb_full
  /\ size rgb_full = capacity rgb_full
  /\ contents black rgb_full
     = replicate 1362 rgb1 ++ [Rgb Byte.x00 Byte.x09 Byte.x09; rgb9; rgb9]
  /\ contents black rgb_full <> replicate 1362 rgb1 ++ replicate 3 rgb9.
Proof.
  split.
  - unfold rgb_overwritten. rewrite write_rgb_ones. by_evaluation.
  - all_by_evaluation.
Qed.

(** **C10, on the code.**  On a [RingBuffer<rgb>] whose next slot is the
    last one, writing two objects in one call and in two calls ends with
    the same cursors but not with the same bytes nor the same contents:
    the one call carries the second object across the end of the first
    mapping, the second of two calls starts again at slot 0, one byte
    further on. *)
Theorem split_write_differs_rgb :
  rgb_split = Returns rgb_after_split
  /\ rgb_joined = Returns rgb_after_joined
  /\ m_head rgb_after_split = m_head rgb_after_joined
  /\ m_tail rgb_after_split = m_tail rgb_after_joined
  /\ m_buffer rgb_after_split <> m_buffer rgb_after_joined
  /\ drop 1363 (contents black rgb_after_joined) = [teal; plum]
  /\ drop 1363 (contents black rgb_after_split)
     = [teal; Rgb Byte.x00 Byte.x04 Byte.x05].
Proof. all_by_evaluation. Qed.

(** The overwrite scenario where the element size divides the region:
    [test_overwrite_logic] on [RingBuffer<int> rb(4096)] ends with
    [capacity()] elements, the last three of them 9 and the rest 1. *)
Lemma latest_elements_kept_witness :
  exists rb,
    run int_fresh int_overwrite = Returns rb
    /\ size rb = capacity int_fresh
    /\ contents (int_of_Z 0) rb
       = replicate 4093 (int_of_Z 1) ++ replicate 3 (int_of_Z 9).
Proof.
  assert (Hb : bounded (capacity int_fresh) int_overwrite).
  { intros data Hin. cbn in Hin.
    repeat (destruct Hin as [Hin|Hin]; [injection Hin as <-; by_evaluation|]).
    destruct Hin. }
  destruct (run_returns int_overwrite int_fresh) as (rb & Hrun & _);
    [wf_by_evaluation | exact Hb |].
  exists rb. split; [exact Hrun|].
  destruct (latest_elements_kept (T:=int) linux 4096 int_overwrite int_fresh
              rb (int_of_Z 0)) as (Hcontents & Hsize);
    [split; by_evaluation | by_evaluation | exists 4096; by_evaluation
    | exact Hb | by_evaluation | exact Hrun |].
  rewrite Hcontents, Hsize. split; by_evaluation.
Defined.

Lemma write_app_aligned_witness :
  bind (write char_one [Byte.x02]) (fun rb => write rb [Byte.x03])
  = write char_one [Byte.x02; Byte.x03].
Proof.
  apply (write_app_aligned (T:=byte) char_one [Byte.x02] [Byte.x03]);
    [wf_by_evaluation | by_evaluation | by_evaluation | by_evaluation].
Defined.

Lemma reads_compose_witness :
  bind (read char_one [Byte.x07]) (fun r1 =>
    bind (read r1.1.1 [Byte.x08]) (fun r2 =>
      Returns (r2.1.1, r1.1.2 ++ r2.1.2, r1.2 + r2.2)))
  = read char_one [Byte.x07; Byte.x08].
Proof.
  apply (reads_compose (T:=byte) char_one [Byte.x07] [Byte.x08]);
    [wf_by_evaluation | by_evaluation | split; [split|]; by_evaluation].
Defined.

Lemma size_within_capacity_witness :
  capacity rgb_after_calls = capacity rgb_fresh
  /\ m_size_bytes rgb_after_calls = m_size_bytes rgb_fresh
  /\ 0 <= size rgb_after_calls <= capacity rgb_after_calls.
Proof.
  apply (size_within_capacity (T:=rgb) linux 1 rgb_calls rgb_fresh);
    [split; by_evaluation | by_evaluation | by_evaluation].
Defined.

Lemma size_accounting_witness :
  exists rb1,
    write rgb_three [black] = Returns rb1
    /\ size rb1 = Z.min (size rgb_three + span_size [black])
                    (capacity rgb_three)
    /\ exists rb2 output' n,
         read rb1 [black; black] = Returns (rb2, output', n)
         /\ n = Z.min (size rb1) (span_size [black; black])
         /\ size rb2 = size rb1 - n.
Proof.
  apply (size_accounting (T:=rgb) rgb_three [black] [black; black]);
    [wf_by_evaluation | by_evaluation].
Defined.

Lemma empty_iff_size_zero_witness :
  empty rgb_three = (size rgb_three =? 0).
Proof.
  apply (empty_iff_size_zero rgb_three); split; by_evaluation.
Defined.

Lemma empty_spans_change_nothing_witness :
  write rgb_three ([] : list rgb) = Returns rgb_three
  /\ read rgb_three ([] : list rgb) = Returns (rgb_three, [], 0).
Proof.
  apply (empty_spans_change_nothing (T:=rgb) rgb_three). wf_by_evaluation.
Defined.

(** A lifetime of [RingBuffer<rgb> rb(1)]: two moves, and the object in
    the middle destroyed first. *)
Lemma mapping_released_once_witness :
  flat_map destroy rgb_objects = [munmap (reservation rgb_fresh)]
  /\ replay nothing_held
       ((construct_calls (T:=rgb) linux 1).1 ++ flat_map destroy rgb_objects)
     = Some nothing_held
  /\ Forall (fun o => members o = rgb_fresh) rgb_objects.
Proof.
  apply (mapping_released_once (T:=rgb) linux 1 _ rgb_fresh 2).
  - by_evaluation.
  - cbn [relay move fst snd mapped members]. apply perm_swap.
Defined.

Lemma same_capacity_again_witness :
  construct (T:=rgb) linux (capacity rgb_fresh) = Returns rgb_fresh
  /\ 1 <= capacity rgb_fresh.
Proof.
  apply (same_capacity_again (T:=rgb) linux 1 rgb_fresh);
    [split; by_evaluation | by_evaluation].
Defined.

(** [RingBuffer<int> rb(size_t(1) << 62)] is a buffer of one page. *)
Lemma overflowing_request_is_served_witness :
  m_size_bytes int_wrapped < 2 ^ 62 * sizeof (T:=int)
  /\ capacity int_wrapped < 2 ^ 62.
Proof.
  apply (overflowing_request_is_served (T:=int) linux (2 ^ 62) int_wrapped);
    by_evaluation.
Defined.

Lemma test_wrap_around_fails_witness :
  test_wrap_around linux = AssertionFails 44.
Proof.
  apply (test_wrap_around_fails linux); [|by_evaluation].
  repeat split.
Defined.

Lemma int_tests_pass_witness :
  test_simple_write_read linux (replicate 5 (int_of_Z 7)) = Passed
  /\ test_overwrite_logic linux = Passed
  /\ test_clear linux = Passed
  /\ test_partial_reads linux (replicate 3 (int_of_Z 7))
       (replicate 7 (int_of_Z 7)) = Passed.
Proof.
  apply (int_tests_pass linux); [|exists 1024| | | |]; try by_evaluation.
  repeat split.
Defined.

Lemma test_empty_read_passes_witness :
  test_empty_read linux
    (replicate 10 (Double Byte.x07 Byte.x07 Byte.x07 Byte.x07
                          Byte.x07 Byte.x07 Byte.x07 Byte.x07))
  = Passed.
Proof.
  apply (test_empty_read_passes linux); [|exists 512|by_evaluation];
    [repeat split|by_evaluation].
Defined.
